(** * Supplemental-context utilities of the AWS toolkit: a shallow embedding

    The development follows three source files:
    - [shared/filesystemUtilities.ts]: [isInDirectory], [getFileDistance],
      [getNonexistentFilename];
    - [codewhisperer/util/supplementalContext/codeParsingUtil.ts]:
      [utgLanguageConfigs], [extractFunctions], [countSubstringMatches],
      [isTestFile], [isTestFileByName];
    - the editor utilities holding [getPrefixSuffixOverlap].

    JavaScript strings are sequences of code units.  The embedding covers the
    strings whose code units lie in U+0000..U+00FF, one [ascii] per code
    unit; on that range [toLowerCase], the regular-expression classes and
    the line terminators below are the ones of ECMAScript. *)

From Stdlib Require Import List Ascii Strings.Byte Bool Arith ZArith Lia.
From Equations Require Import Equations.
Import ListNotations.

(** ** Strings *)

Definition str := list ascii.

Inductive str_repr := str_nil | str_cons (a : ascii) (l : str_repr).

Fixpoint str_parse (b : list byte) : str_repr :=
  match b with
  | [] => str_nil
  | x :: r => str_cons (ascii_of_byte x) (str_parse r)
  end.

Fixpoint str_print (l : str_repr) : list byte :=
  match l with
  | str_nil => []
  | str_cons a r => byte_of_ascii a :: str_print r
  end.

Declare Scope js_scope.
Delimit Scope js_scope with js.
#[warning="-via-type-remapping,-via-type-mismatch"]
String Notation str str_parse str_print
  (via str_repr mapping [[nil] => str_nil, [cons] => str_cons]) : js_scope.
Open Scope js_scope.

Module JsString.

(** [a === b] on strings. *)
Fixpoint eqb (a b : str) : bool :=
  match a, b with
  | [], [] => true
  | x :: a', y :: b' => Ascii.eqb x y && eqb a' b'
  | _, _ => false
  end.

(** Relative index of [String.prototype.slice] and [Array.prototype.slice]:
    a negative index counts from the end, and the result is clamped to
    [0..len]. *)
Definition relativeIndex (len : nat) (k : Z) : nat :=
  if (k <? 0)%Z then Z.to_nat (Z.max (Z.of_nat len + k) 0)
  else Nat.min (Z.to_nat k) len.

(** [s.slice(start, end)]; [end_ = None] is the omitted argument. *)
Definition slice {A : Type} (s : list A) (start : Z) (end_ : option Z) : list A :=
  let len := length s in
  let from := relativeIndex len start in
  let to := match end_ with
            | None => len
            | Some e => relativeIndex len e
            end in
  firstn (to - from) (skipn from s).

(** [s.startsWith(p)]. *)
Fixpoint startsWith (s p : str) {struct p} : bool :=
  match p, s with
  | [], _ => true
  | x :: p', y :: s' => Ascii.eqb x y && startsWith s' p'
  | _ :: _, [] => false
  end.

(** [s.includes(p)]: [p] occurs in [s] at some position. *)
Fixpoint includes (s p : str) : bool :=
  startsWith s p ||
  match s with
  | [] => false
  | _ :: s' => includes s' p
  end.

(** [s.split(sep)] for a separator of one code unit: the pieces between
    the occurrences of [sep]; there is always at least one piece. *)
Fixpoint split (sep : ascii) (s : str) : list str :=
  match s with
  | [] => [[]]
  | c :: s' =>
      if Ascii.eqb c sep then [] :: split sep s'
      else match split sep s' with
           | [] => [[c]]
           | p :: ps => (c :: p) :: ps
           end
  end.

(** [pieces.join(sep)] for a separator of one code unit. *)
Fixpoint join (sep : ascii) (pieces : list str) : str :=
  match pieces with
  | [] => []
  | [p] => p
  | p :: rest => p ++ sep :: join sep rest
  end.

(** Lower-casing of one code unit of U+0000..U+00FF: [A-Z], and the
    Latin-1 capitals U+00C0..U+00DE without the multiplication sign
    U+00D7, move up by 32. *)
Definition lowerUnit (c : ascii) : ascii :=
  let n := nat_of_ascii c in
  if ((65 <=? n) && (n <=? 90)) || ((192 <=? n) && (n <=? 222) && negb (n =? 215))
  then ascii_of_nat (n + 32)
  else c.

(** [s.toLowerCase()]. *)
Definition toLowerCase (s : str) : str := map lowerUnit s.

(** Decimal digits of a non-negative integer, as in a template literal. *)
Fixpoint ofUint (d : Decimal.uint) : str :=
  match d with
  | Decimal.Nil => []
  | Decimal.D0 d => "0" ++ ofUint d
  | Decimal.D1 d => "1" ++ ofUint d
  | Decimal.D2 d => "2" ++ ofUint d
  | Decimal.D3 d => "3" ++ ofUint d
  | Decimal.D4 d => "4" ++ ofUint d
  | Decimal.D5 d => "5" ++ ofUint d
  | Decimal.D6 d => "6" ++ ofUint d
  | Decimal.D7 d => "7" ++ ofUint d
  | Decimal.D8 d => "8" ++ ofUint d
  | Decimal.D9 d => "9" ++ ofUint d
  end.

Definition ofNat (n : nat) : str := ofUint (Nat.to_uint n).

(** One hexadecimal digit (lower case), and [buf.toString('hex')]. *)
Definition hexDigit (n : nat) : ascii :=
  nth n ["0"; "1"; "2"; "3"; "4"; "5"; "6"; "7"; "8"; "9";
         "a"; "b"; "c"; "d"; "e"; "f"]%char "0"%char.

Definition hexOfByte (b : byte) : str :=
  let n := Byte.to_nat b in [hexDigit (n / 16); hexDigit (n mod 16)].

Definition toHex (buf : list byte) : str := concat (map hexOfByte buf).

End JsString.

(** ** Regular expressions

    The patterns of [utgLanguageConfigs] are [RegExp] literals.  Their
    syntax trees are given below, and matched by the backtracking matcher of
    ECMAScript (leftmost match, greedy quantifiers trying the longest
    iteration count first, alternatives from left to right). *)

Module RegExp.

(** Members of a character class. *)
Inductive classAtom : Type :=
| Lit (c : ascii)               (* one code unit *)
| Range (lo hi : ascii)         (* lo-hi *)
| Word                          (* \w *)
| Space.                        (* \s *)

Inductive regex : Type :=
| Empty                                         (* the empty pattern *)
| Chr (c : ascii)                               (* a literal code unit *)
| Dot                                           (* . *)
| Class (negated : bool) (atoms : list classAtom) (* [...] and [^...] *)
| Seq (r1 r2 : regex)
| Alt (r1 r2 : regex)                           (* r1|r2 *)
| Repeat (min : nat) (max : option nat) (r : regex) (* greedy quantifier *)
| Group (n : nat) (r : regex)                   (* n-th capturing group *)
| Bol                                           (* ^ *)
| Eol                                           (* $ *)
| LookBehind (r : regex).                       (* (?<=r), r without groups *)

Definition isLineTerminator (c : ascii) : bool :=
  let n := nat_of_ascii c in (n =? 10) || (n =? 13).

Definition isWordChar (c : ascii) : bool :=
  let n := nat_of_ascii c in
  ((48 <=? n) && (n <=? 57)) || ((65 <=? n) && (n <=? 90)) ||
  ((97 <=? n) && (n <=? 122)) || (n =? 95).

Definition isWhiteSpace (c : ascii) : bool :=
  let n := nat_of_ascii c in
  ((9 <=? n) && (n <=? 13)) || (n =? 32) || (n =? 160).

Definition inAtom (c : ascii) (a : classAtom) : bool :=
  match a with
  | Lit x => Ascii.eqb c x
  | Range lo hi => (nat_of_ascii lo <=? nat_of_ascii c) && (nat_of_ascii c <=? nat_of_ascii hi)
  | Word => isWordChar c
  | Space => isWhiteSpace c
  end.

(** Captures: group number to the [start, end) span it matched last. *)
Definition captures := list (nat * (nat * nat)).

Fixpoint capture (n : nat) (caps : captures) : option (nat * nat) :=
  match caps with
  | [] => None
  | (k, span) :: rest => if k =? n then Some span else capture n rest
  end.

Fixpoint groupsOf (r : regex) : list nat :=
  match r with
  | Seq r1 r2 | Alt r1 r2 => groupsOf r1 ++ groupsOf r2
  | Repeat _ _ r | LookBehind r => groupsOf r
  | Group n r => n :: groupsOf r
  | _ => []
  end.

Definition clearGroups (gs : list nat) (caps : captures) : captures :=
  filter (fun e => negb (existsb (Nat.eqb (fst e)) gs)) caps.

(** A matcher state is the end index reached and the captures so far. *)
Definition state := (nat * captures)%type.
Definition continuation := nat -> captures -> option state.

Definition orElse (a : option state) (b : unit -> option state) : option state :=
  match a with
  | Some x => Some x
  | None => b tt
  end.

Section Matcher.
Variable multiline : bool.
Variable input : str.

Definition atBol (i : nat) : bool :=
  match i with
  | 0 => true
  | S j => multiline &&
           match nth_error input j with
           | Some c => isLineTerminator c
           | None => false
           end
  end.

Definition atEol (i : nat) : bool :=
  match nth_error input i with
  | None => true
  | Some c => multiline && isLineTerminator c
  end.

Definition oneUnit (p : ascii -> bool) (i : nat) (caps : captures)
    (k : continuation) : option state :=
  match nth_error input i with
  | Some c => if p c then k (S i) caps else None
  | None => None
  end.

(** [tryFrom f n j] is the first success of [f j], [f (j+1)], ...,
    over [n] start positions. *)
Fixpoint tryFrom (f : nat -> option state) (n j : nat) : option state :=
  match n with
  | 0 => None
  | S n' => orElse (f j) (fun _ => tryFrom f n' (S j))
  end.

(** The quantifier, after RepeatMatcher: [m] matches the quantified atom
    and [gs] are its groups, whose captures are cleared at each iteration.
    An iteration runs while [max] allows it; once [min] is exhausted an
    iteration that consumes nothing is rejected, and fewer iterations are
    tried when more fail.  [fuel] bounds the number of iterations. *)
Fixpoint repeatMatcher (m : nat -> captures -> continuation -> option state)
    (gs : list nat) (k : continuation) (fuel min : nat) (max : option nat)
    (i : nat) (caps : captures) {struct fuel} : option state :=
  match fuel with
  | 0 => None
  | S fuel' =>
      match max with
      | Some 0 => k i caps
      | _ =>
          let d := fun j caps' =>
            if (min =? 0) && (j =? i) then None
            else repeatMatcher m gs k fuel' (pred min) (option_map pred max) j caps' in
          let cleared := clearGroups gs caps in
          match min with
          | S _ => m i cleared d
          | 0 => orElse (m i cleared d) (fun _ => k i caps)
          end
      end
  end.

(** [matchAt r i caps k]: match [r] at index [i], then continue with
    [k]; [None] is failure.  A quantifier runs at most
    [min + (length input - i)] iterations, each of them using up one of the
    [min] or at least one code unit. *)
Fixpoint matchAt (r : regex) (i : nat) (caps : captures) (k : continuation)
    {struct r} : option state :=
  match r with
  | Empty => k i caps
  | Chr c => oneUnit (Ascii.eqb c) i caps k
  | Dot => oneUnit (fun c => negb (isLineTerminator c)) i caps k
  | Class negated atoms =>
      oneUnit (fun c => xorb negated (existsb (inAtom c) atoms)) i caps k
  | Seq r1 r2 => matchAt r1 i caps (fun j caps' => matchAt r2 j caps' k)
  | Alt r1 r2 => orElse (matchAt r1 i caps k) (fun _ => matchAt r2 i caps k)
  | Group n r1 => matchAt r1 i caps (fun j caps' => k j ((n, (i, j)) :: caps'))
  | Bol => if atBol i then k i caps else None
  | Eol => if atEol i then k i caps else None
  | LookBehind r1 =>
      match tryFrom (fun j => matchAt r1 j caps
                                (fun e caps' => if e =? i then Some (e, caps') else None))
                    (S i) 0 with
      | Some _ => k i caps
      | None => None
      end
  | Repeat min max r1 =>
      repeatMatcher (matchAt r1) (groupsOf r1) k
        (S (min + (length input - i))) min max i caps
  end.

(** The search of RegExpBuiltinExec: the first index at or after
    [lastIndex] where the pattern matches, with the end index and the
    captures of that match. *)
Definition search (r : regex) (lastIndex : nat) : option (nat * state) :=
  (fix scan (n j : nat) {struct n} : option (nat * state) :=
     match n with
     | 0 => None
     | S n' =>
         match matchAt r j [] (fun e caps => Some (e, caps)) with
         | Some st => Some (j, st)
         | None => scan n' (S j)
         end
     end) (S (length input) - lastIndex) lastIndex.

End Matcher.

(** A [RegExp] object: the pattern, the flags [g] and [m], and the mutable
    [lastIndex] property. *)
Record t : Type := mk {
  pattern : regex;
  global : bool;
  multiline : bool;
  lastIndex : nat
}.

Definition literal (r : regex) (g m : bool) : t := mk r g m 0.

Definition setLastIndex (re : t) (n : nat) : t :=
  mk (pattern re) (global re) (multiline re) n.

(** The match array of [exec]: [index], and element [n] through [item],
    [None] being [undefined]. *)
Record matchArray : Type := mkMatch {
  input : str;
  index : nat;
  endIndex : nat;
  groups : captures
}.

Definition item (m : matchArray) (n : nat) : option str :=
  match n with
  | 0 => Some (firstn (endIndex m - index m) (skipn (index m) (input m)))
  | _ => match capture n (groups m) with
         | Some (a, b) => Some (firstn (b - a) (skipn a (input m)))
         | None => None
         end
  end.

(** [re.exec(s)]: the match or [null], and the object after the call.
    Without the [g] flag the search starts at 0 and [lastIndex] is left
    alone; with it the search starts at [lastIndex], which becomes the end
    of the match, or 0 when there is none. *)
Definition exec (re : t) (s : str) : option matchArray * t :=
  let start := if global re then lastIndex re else 0 in
  match search (multiline re) s (pattern re) start with
  | Some (i, (e, caps)) =>
      (Some (mkMatch s i e caps), if global re then setLastIndex re e else re)
  | None => (None, if global re then setLastIndex re 0 else re)
  end.

(** [re.test(s)]. *)
Definition test (re : t) (s : str) : bool * t :=
  match exec re s with
  | (Some _, re') => (true, re')
  | (None, re') => (false, re')
  end.

(** Pattern syntax. *)
Fixpoint lit (s : str) : regex :=
  match s with
  | [] => Empty
  | [c] => Chr c
  | c :: s' => Seq (Chr c) (lit s')
  end.

Fixpoint seq (rs : list regex) : regex :=
  match rs with
  | [] => Empty
  | [r] => r
  | r :: rs' => Seq r (seq rs')
  end.

Definition star (r : regex) : regex := Repeat 0 None r.       (* r* *)
Definition plus (r : regex) : regex := Repeat 1 None r.       (* r+ *)
Definition opt (r : regex) : regex := Repeat 0 (Some 1) r.    (* r? *)
Definition word : regex := Class false [Word].                (* \w *)
Definition space : regex := Class false [Space].              (* \s *)

End RegExp.

(** ** Node's [path] module *)

Module Path.

Fixpoint dropWhile {A : Type} (f : A -> bool) (l : list A) : list A :=
  match l with
  | [] => []
  | x :: r => if f x then dropWhile f r else l
  end.

Definition isEmpty (s : str) : bool := JsString.eqb s "".

(** [path.basename(p)] for slash-separated paths: trailing separators are
    skipped, and the result is what follows the last separator before
    them; it is the last non-empty piece of [p], or [""]. *)
Definition basename (p : str) : str :=
  match dropWhile isEmpty (rev (JsString.split "/" p)) with
  | [] => ""
  | piece :: _ => piece
  end.

End Path.

(** ** Results of calls that may throw *)

Inductive outcome (A : Type) : Type :=
| Returned (a : A)
| Thrown (message : str).

Arguments Returned {A} a.
Arguments Thrown {A} message.

(** ** codeParsingUtil.ts *)

Module CodeParsingUtil.
Import RegExp.

Record utgLanguageConfig : Type := {
  extension : str;
  testFilenamePattern : list RegExp.t;
  functionExtractionPattern : option RegExp.t;
  classExtractionPattern : option RegExp.t;
  importStatementRegExp : option RegExp.t
}.

Definition newline : ascii := ascii_of_nat 10.
Definition lower : classAtom := Range "a" "z".
Definition upper : classAtom := Range "A" "Z".
Definition digit : classAtom := Range "0" "9".

(** [/^(.+)Test(\.java)$/], [/(.+)Tests(\.java)$/], [/Test(.+)(\.java)$/] *)
Definition javaTestPatterns : list RegExp.t :=
  [ literal (seq [Bol; Group 1 (plus Dot); lit "Test"; Group 2 (lit ".java"); Eol]) false false;
    literal (seq [Group 1 (plus Dot); lit "Tests"; Group 2 (lit ".java"); Eol]) false false;
    literal (seq [lit "Test"; Group 1 (plus Dot); Group 2 (lit ".java"); Eol]) false false ].

(** The function pattern of java, flags [gm], its parts set apart by
    spaces:
    [(?:(?:public|private|protected)\s+)  (?:static\s+)?  (?:[\w<>]+\s+)?]
    [(\w+)  \s*  \(  [^)]*  \)  \s*  (?: (?:throws\s+\w+)? \s* )  [{;]] *)
Definition javaFunctionPattern : RegExp.t :=
  literal
    (seq [ Seq (Alt (lit "public") (Alt (lit "private") (lit "protected"))) (plus space);
           opt (Seq (lit "static") (plus space));
           opt (Seq (plus (Class false [Word; Lit "<"; Lit ">"])) (plus space));
           Group 1 (plus word);
           star space; Chr "("; star (Class true [Lit ")"]); Chr ")"; star space;
           Seq (opt (seq [lit "throws"; plus space; plus word])) (star space);
           Class false [Lit "{"; Lit ";"] ])
    true true.

(** [/(?<=^|\n)\s*public\s+class\s+(\w+)/gm] *)
Definition javaClassPattern : RegExp.t :=
  literal
    (seq [ LookBehind (Alt Bol (Chr newline)); star space; lit "public"; plus space;
           lit "class"; plus space; Group 1 (plus word) ])
    true true.

(** [/import .*\.([a-zA-Z0-9]+);/] *)
Definition javaImportRegExp : RegExp.t :=
  literal
    (seq [ lit "import "; star Dot; Chr ".";
           Group 1 (plus (Class false [lower; upper; digit])); Chr ";" ])
    false false.

(** [/^test_(.+)(\.py)$/], [/^(.+)_test(\.py)$/] *)
Definition pythonTestPatterns : list RegExp.t :=
  [ literal (seq [Bol; lit "test_"; Group 1 (plus Dot); Group 2 (lit ".py"); Eol]) false false;
    literal (seq [Bol; Group 1 (plus Dot); lit "_test"; Group 2 (lit ".py"); Eol]) false false ].

(** The function pattern of python, flag [g], its parts set apart by
    spaces: [def  \s+  ( [a-zA-Z_] [a-zA-Z0-9_]* )  \s*  \(] *)
Definition pythonFunctionPattern : RegExp.t :=
  literal
    (seq [ lit "def"; plus space;
           Group 1 (Seq (Class false [lower; upper; Lit "_"])
                        (star (Class false [lower; upper; digit; Lit "_"])));
           star space; Chr "(" ])
    true false.

(** [/^class\s+(\w+)\s*:/gm] *)
Definition pythonClassPattern : RegExp.t :=
  literal
    (seq [Bol; lit "class"; plus space; Group 1 (plus word); star space; Chr ":"])
    true true.

(** The import pattern of python, without flags, the group set apart by
    spaces: [from ( .* ) import.*] *)
Definition pythonImportRegExp : RegExp.t :=
  literal (seq [lit "from "; Group 1 (star Dot); lit " import"; star Dot]) false false.

(** [/^(.+)\.test(\.ts|\.tsx)$/], [/^(.+)\.spec(\.ts|\.tsx)$/] *)
Definition tsTestPatterns : list RegExp.t :=
  [ literal (seq [Bol; Group 1 (plus Dot); lit ".test";
                  Group 2 (Alt (lit ".ts") (lit ".tsx")); Eol]) false false;
    literal (seq [Bol; Group 1 (plus Dot); lit ".spec";
                  Group 2 (Alt (lit ".ts") (lit ".tsx")); Eol]) false false ].

(** [/^(.+)\.test(\.js|\.jsx)$/], [/^(.+)\.spec(\.js|\.jsx)$/] *)
Definition jsTestPatterns : list RegExp.t :=
  [ literal (seq [Bol; Group 1 (plus Dot); lit ".test";
                  Group 2 (Alt (lit ".js") (lit ".jsx")); Eol]) false false;
    literal (seq [Bol; Group 1 (plus Dot); lit ".spec";
                  Group 2 (Alt (lit ".js") (lit ".jsx")); Eol]) false false ].

(** The own properties of the object literal [utgLanguageConfigs]. *)
Definition utgLanguageConfigs : list (str * utgLanguageConfig) :=
  [ ("java", {| extension := ".java";
                testFilenamePattern := javaTestPatterns;
                functionExtractionPattern := Some javaFunctionPattern;
                classExtractionPattern := Some javaClassPattern;
                importStatementRegExp := Some javaImportRegExp |});
    ("python", {| extension := ".py";
                  testFilenamePattern := pythonTestPatterns;
                  functionExtractionPattern := Some pythonFunctionPattern;
                  classExtractionPattern := Some pythonClassPattern;
                  importStatementRegExp := Some pythonImportRegExp |});
    ("typescript", {| extension := ".ts";
                      testFilenamePattern := tsTestPatterns;
                      functionExtractionPattern := None;
                      classExtractionPattern := None;
                      importStatementRegExp := None |});
    ("javascript", {| extension := ".js";
                      testFilenamePattern := jsTestPatterns;
                      functionExtractionPattern := None;
                      classExtractionPattern := None;
                      importStatementRegExp := None |});
    ("typescriptreact", {| extension := ".tsx";
                           testFilenamePattern := tsTestPatterns;
                           functionExtractionPattern := None;
                           classExtractionPattern := None;
                           importStatementRegExp := None |});
    ("javascriptreact", {| extension := ".jsx";
                           testFilenamePattern := jsTestPatterns;
                           functionExtractionPattern := None;
                           classExtractionPattern := None;
                           importStatementRegExp := None |}) ].

(** [utgLanguageConfigs] is an object literal, so its prototype is
    [Object.prototype], whose members a property read falls back to. *)
Definition objectPrototypeMembers : list str :=
  [ "constructor"; "__defineGetter__"; "__defineSetter__"; "hasOwnProperty";
    "__lookupGetter__"; "__lookupSetter__"; "isPrototypeOf";
    "propertyIsEnumerable"; "toString"; "valueOf"; "__proto__";
    "toLocaleString" ].

(** What [utgLanguageConfigs[language]] evaluates to. *)
Inductive property : Type :=
| Undefined
| Config (c : utgLanguageConfig)
| Inherited (name : str).   (* a member of Object.prototype: truthy, and
                               without a testFilenamePattern property *)

Fixpoint ownProperty (key : str) (o : list (str * utgLanguageConfig))
    : option utgLanguageConfig :=
  match o with
  | [] => None
  | (k, c) :: rest => if JsString.eqb k key then Some c else ownProperty key rest
  end.

Definition hasKey (key : str) (keys : list str) : bool :=
  existsb (JsString.eqb key) keys.

Definition getProperty (key : str) : property :=
  match ownProperty key utgLanguageConfigs with
  | Some c => Config c
  | None => if hasKey key objectPrototypeMembers then Inherited key else Undefined
  end.

(** The [while] loop of [extractFunctions] and [extractClasses]; [None]
    when [fuel] iterations did not reach a failing [exec]. *)
Fixpoint execLoop (fuel : nat) (fileContent : str) (regex : RegExp.t)
    (names : list (option str)) : option (list (option str) * RegExp.t) :=
  match fuel with
  | 0 => None
  | S fuel' =>
      match exec regex fileContent with
      | (Some m, regex') => execLoop fuel' fileContent regex' (names ++ [item m 1])
      | (None, regex') => Some (names, regex')
      end
  end.

(** [extractFunctions(fileContent, regex)]: the names pushed, [None] in
    the list being [undefined], and the [RegExp] object after the call. *)
Definition extractFunctions (fuel : nat) (fileContent : str) (regex : option RegExp.t)
    : option (list (option str) * option RegExp.t) :=
  match regex with
  | None => Some ([], None)
  | Some re =>
      match execLoop fuel fileContent re [] with
      | Some (functionNames, re') => Some (functionNames, Some re')
      | None => None
      end
  end.

Definition extractClasses (fuel : nat) (fileContent : str) (regex : option RegExp.t)
    : option (list (option str) * option RegExp.t) :=
  match regex with
  | None => Some ([], None)
  | Some re =>
      match execLoop fuel fileContent re [] with
      | Some (classNames, re') => Some (classNames, Some re')
      | None => None
      end
  end.

Definition countSubstringMatches (arr1 arr2 : list str) : nat :=
  fold_left
    (fun count str1 =>
       fold_left
         (fun count str2 =>
            if JsString.includes (JsString.toLowerCase str2) (JsString.toLowerCase str1)
            then S count else count)
         arr2 count)
    arr1 0.

(** The [for] loop of [isTestFileByName] over the patterns. *)
Fixpoint anyPatternMatches (patterns : list RegExp.t) (filename : str) : bool :=
  match patterns with
  | [] => false
  | pattern :: rest =>
      if fst (test pattern filename) then true else anyPatternMatches rest filename
  end.

Definition isTestFileByName (filePath language : str) : outcome bool :=
  match getProperty language with
  | Undefined => Returned false
  | Config languageConfig =>
      let filename := Path.basename filePath in
      Returned (anyPatternMatches (testFilenamePattern languageConfig) filename)
  | Inherited _ => Thrown "TypeError: testFilenamePattern is not iterable"
  end.

(** The second argument of [isTestFile]. *)
Record languageConfigArg : Type := {
  languageId : str;
  fileContent : option str
}.

Section WithPathUtils.
(** [normalize] of [shared/utilities/pathUtils]. *)
Variable normalize : str -> str.

Definition pathContainsTest (filePath : str) : bool :=
  let normalizedFilePath := normalize filePath in
  JsString.includes normalizedFilePath "tests/" ||
  JsString.includes normalizedFilePath "test/" ||
  JsString.includes normalizedFilePath "tst/".

Definition isTestFile (filePath : str) (languageConfig : languageConfigArg)
    : outcome bool :=
  let normalizedFilePath := normalize filePath in
  let pathContainsTest :=
    JsString.includes normalizedFilePath "tests/" ||
    JsString.includes normalizedFilePath "test/" ||
    JsString.includes normalizedFilePath "tst/" in
  match isTestFileByName normalizedFilePath (languageId languageConfig) with
  | Thrown e => Thrown e
  | Returned fileNameMatchTestPatterns =>
      if pathContainsTest || fileNameMatchTestPatterns then Returned true
      else Returned false
  end.
End WithPathUtils.

End CodeParsingUtil.

(** ** filesystemUtilities.ts *)

Module FilesystemUtilities.

Section PathFunctions.
(** [normalizeSeparator] and [normalize] of [shared/utilities/pathUtils],
    and [os.platform() === 'win32']. *)
Variable normalizeSeparator : str -> str.
Variable normalize : str -> str.
Variable win32 : bool.

(** [while (pieces.length > 0 && pieces[pieces.length - 1] === '') pieces.pop()] *)
Definition popEmptyPieces (pieces : list str) : list str :=
  rev (Path.dropWhile Path.isEmpty (rev pieces)).

(** [pieces.every((value, index) => ...)], the callback reading
    [containedPathPieces[index]]. *)
Fixpoint everyPiece (caseInsensitive : bool) (containedPathPieces pieces : list str)
    (index : nat) : bool :=
  match pieces with
  | [] => true
  | value :: rest =>
      match nth_error containedPathPieces index with
      | Some other =>
          (if caseInsensitive
           then JsString.eqb (JsString.toLowerCase value) (JsString.toLowerCase other)
           else JsString.eqb value other)
          && everyPiece caseInsensitive containedPathPieces rest (S index)
      | None => false   (* not reached: the length test comes first *)
      end
  end.

Definition isInDirectory (d p : str) : bool :=
  if JsString.eqb d "" || JsString.eqb p "" then true
  else
    let parentDirPieces := JsString.split "/" (normalizeSeparator d) in
    let containedPathPieces := JsString.split "/" (normalizeSeparator p) in
    if length containedPathPieces <? length parentDirPieces then false
    else
      let parentDirPieces := popEmptyPieces parentDirPieces in
      let caseInsensitive := win32 in
      everyPiece caseInsensitive containedPathPieces parentDirPieces 0.

(** The [while] loop of [getFileDistance]: the first index at which the
    two directory sequences differ or one of them ends. *)
Equations? commonLoop (filePathA filePathB : list str) (i : nat) : nat
  by wf (Nat.min (length filePathA) (length filePathB) - i) lt :=
  commonLoop filePathA filePathB i
    with lt_dec i (Nat.min (length filePathA) (length filePathB)) => {
    | left _ =>
        if negb (JsString.eqb (nth i filePathA "") (nth i filePathB ""))
        then i
        else commonLoop filePathA filePathB (S i);
    | right _ => i }.
Proof. lia. Qed.

(** [normalize(file).split('/')] without its last element. *)
Definition directoryPieces (file : str) : list str :=
  let filePath := JsString.split "/" (normalize file) in
  JsString.slice filePath 0 (Some (Z.of_nat (length filePath) - 1)%Z).

Definition getFileDistance (fileA fileB : str) : nat :=
  let filePathA := directoryPieces fileA in
  let filePathB := directoryPieces fileB in
  let i := commonLoop filePathA filePathB 0 in
  length (JsString.slice filePathA (Z.of_nat i) None)
  + length (JsString.slice filePathB (Z.of_nat i) None).
End PathFunctions.

(** The state [getNonexistentFilename] works on: how many random bytes
    were drawn, and the full paths probed with [fs.exists], oldest
    first. *)
Record world : Type := {
  drawn : nat;
  probes : list str
}.

Definition initial : world := {| drawn := 0; probes := [] |}.

Section Probing.
(** The host: the filesystem as [fs.existsDir] and [fs.exists] see it,
    [path.join], and the bytes [crypto.randomBytes] delivers, in the
    order they are drawn. *)
Variable existsDir : str -> bool.
Variable exists_ : str -> bool.
Variable join : str -> str -> str.
Variable randomByte : nat -> byte.

(** [crypto.randomBytes(n)] *)
Definition randomBytes (n : nat) (w : world) : list byte * world :=
  (map randomByte (List.seq (drawn w) n),
   {| drawn := drawn w + n; probes := probes w |}).

(** [await fs.exists(fullpath)] *)
Definition probe (fullpath : str) (w : world) : bool * world :=
  (exists_ fullpath, {| drawn := drawn w; probes := probes w ++ [fullpath] |}).

(** The candidate of attempt [i]. *)
Definition candidate (name suffix : str) (max i : nat) (w : world) : str * world :=
  if i =? 0 then (name ++ suffix, w)
  else if i <? max then (name ++ "-" ++ JsString.ofNat i ++ suffix, w)
  else
    let '(bytes, w') := randomBytes 4 w in
    (name ++ "-" ++ JsString.toHex bytes ++ suffix, w').

(** [for (let i = 0; true; i++)], from attempt [i]; [None] when [fuel]
    iterations did not reach the [return]. *)
Fixpoint attempts (fuel : nat) (dir name suffix : str) (max i : nat) (w : world)
    : option (str * world) :=
  match fuel with
  | 0 => None
  | S fuel' =>
      let '(filename, w1) := candidate name suffix max i w in
      let fullpath := join dir filename in
      let '(found, w2) := probe fullpath w1 in
      if negb found || (max + 99 <=? i) then Some (filename, w2)
      else attempts fuel' dir name suffix max (S i) w2
  end.

(** [max = None] is the omitted argument, which defaults to 99. *)
Definition getNonexistentFilename (fuel : nat) (dir name suffix : str)
    (max : option nat) (w : world) : option (outcome str * world) :=
  let max := match max with Some m => m | None => 99 end in
  if JsString.eqb name "" then Some (Thrown "name is empty", w)
  else if negb (existsDir dir)
  then Some (Thrown ("directory does not exist: " ++ dir), w)
  else
    match attempts fuel dir name suffix max 0 w with
    | Some (filename, w') => Some (Returned filename, w')
    | None => None
    end.
End Probing.

(** *** getDirSize *)

(** [vscode.FileType]. *)
Definition FileType_Unknown : nat := 0.

(** What [fs.readdir] and [fs.stat] see below a path: the type of the
    entry, its size, and its entries when it is read as a directory. *)
#[warning="-register-all"]
Inductive node : Type :=
| Node (type : nat) (size : nat) (entries : list (str * node)).

Definition nodeEntries (n : node) : list (str * node) :=
  let 'Node _ _ entries := n in entries.

Section DirSize.
Variable join : str -> str -> str.
(** [expired dirPath]: whether [performance.now() - startTime > duration]
    holds when the call for [dirPath] starts. *)
Variable expired : str -> bool.

End DirSize.

(** *** The temporary folder *)

Section TemporaryFolder.
(** [tempDirPath], [path.join(tempDirPath, ...parts)], the bytes
    [crypto.randomBytes] delivers, and whether [fs.mkdir] fails. *)
Variable tempDirPath : str.
Variable joinAll : str -> list str -> str.
Variable randomByte : nat -> byte.
Variable mkdirFails : str -> bool.


End TemporaryFolder.

(** *** The download path *)

(** A value of the global state: a string, or something else that is
    truthy or falsy. *)
Inductive stored : Type :=
| StoredString (s : str)
| StoredOther (truthy : bool).

(** [globals.globalState] and the error log. *)
Record session : Type := {
  globalState : list (str * stored);
  errorLog : list str
}.

(** [globalState.get(key)]; [None] is [undefined]. *)
Fixpoint stateGet (key : str) (state : list (str * stored)) : option stored :=
  match state with
  | [] => None
  | (k, v) :: rest => if JsString.eqb k key then Some v else stateGet key rest
  end.

(** [globalState.update(key, value)] when it succeeds. *)
Definition stateUpdate (key : str) (value : stored) (state : list (str * stored))
    : list (str * stored) :=
  (key, value) :: filter (fun kv => negb (JsString.eqb (fst kv) key)) state.

Section DownloadPath.
(** [fs.existsDir], [path.join], [path.dirname], [os.homedir()],
    [os.tmpdir()], and whether [globalState.update] fails. *)
Variable existsDir : str -> bool.
Variable join : str -> str -> str.
Variable dirname : str -> str.
Variable homedir : str.
Variable tmpdir : str.
Variable updateFails : bool.

Definition downloadsDir : str :=
  let downloadPath := join homedir "Downloads" in
  if existsDir downloadPath then downloadPath else tmpdir.

Definition getDefaultDownloadPath (st : session) : str * session :=
  match stateGet "aws.downloadPath" (globalState st) with
  | Some (StoredString lastUsedPath) =>
      if JsString.eqb lastUsedPath "" then (downloadsDir, st)
      else (lastUsedPath, st)
  | Some (StoredOther true) =>
      (downloadsDir,
       {| globalState := globalState st;
          errorLog := errorLog st ++ ["Expected aws.downloadPath to be string"] |})
  | Some (StoredOther false) | None => (downloadsDir, st)
  end.

Definition setDefaultDownloadPath (downloadPath : str) (st : session) : session :=
  let value :=
    if existsDir downloadPath then downloadPath else dirname downloadPath in
  if updateFails
  then {| globalState := globalState st;
          errorLog := errorLog st ++ ["Error while setting aws.downloadPath"] |}
  else {| globalState := stateUpdate "aws.downloadPath" (StoredString value) (globalState st);
          errorLog := errorLog st |}.
End DownloadPath.

End FilesystemUtilities.

(** ** The editor utilities *)

Module EditorUtilities.

(** The [while] loop of [getPrefixSuffixOverlap], from [i] downwards. *)
Fixpoint overlapLoop (firstString secondString : str) (i : nat) : nat :=
  match i with
  | 0 => 0
  | S i' =>
      if JsString.eqb (JsString.slice secondString 0 (Some (Z.of_nat i)))
                      (JsString.slice firstString (- Z.of_nat i) None)
      then i
      else overlapLoop firstString secondString i'
  end.

Definition getPrefixSuffixOverlap (firstString secondString : str) : str :=
  let i := overlapLoop firstString secondString
             (Nat.min (length firstString) (length secondString)) in
  JsString.slice secondString 0 (Some (Z.of_nat i)).

(** [getFileExt(languageId)]; [None] is [undefined]. *)
Definition getFileExt (languageId : str) : option str :=
  if JsString.eqb languageId "java" then Some ".java"
  else if JsString.eqb languageId "python" then Some ".py"
  else None.

Section JsonContext.
(** The constants of [models/constants]: two lists of keywords, and the
    members of the set of configuration file names. *)
Variable AWSTemplateKeyWords : list str.
Variable AWSTemplateCaseInsensitiveKeyWords : list str.
Variable JsonConfigFileNamingConvention : list str.

Definition checkLeftContextKeywordsForJson (fileName leftFileContent language : str)
    : bool :=
  if JsString.eqb language "json"
     && negb (existsb (fun substring => JsString.includes leftFileContent substring)
                AWSTemplateKeyWords)
     && negb (existsb (fun substring =>
                         JsString.includes (JsString.toLowerCase leftFileContent) substring)
                AWSTemplateCaseInsensitiveKeyWords)
     && negb (existsb (JsString.eqb (JsString.toLowerCase fileName))
                JsonConfigFileNamingConvention)
  then true
  else false.
End JsonContext.

End EditorUtilities.

(** ** The path helpers absent from the sources *)

Module PathUtils.

(** Modelled from the spec: [normalizeSeparator] of
    [shared/utilities/pathUtils], which is not among the sources.  The
    spec only says that paths are slash-normalized, slash-separated
    segment sequences: every backslash becomes a slash. *)
Definition normalizeSeparator (p : str) : str :=
  map (fun c => if Ascii.eqb c "\" then "/"%char else c) p.

(** Modelled from the spec: [normalize] of [shared/utilities/pathUtils],
    which is not among the sources; the spec's normalized, slash-separated
    path. *)
Definition normalize (p : str) : str := normalizeSeparator p.

End PathUtils.

(** ** The properties in the words of the specification *)

Module Spec.

(** [p] occurs in [s] as a substring. *)
Definition Substring (p s : str) : Prop :=
  exists before after, s = before ++ p ++ after.

Definition PrefixOf (p s : str) : Prop := exists after, s = p ++ after.

Definition SuffixOf (p s : str) : Prop := exists before, s = before ++ p.

(** Length of the longest common prefix of two segment sequences. *)
Fixpoint commonPrefixLen (a b : list str) : nat :=
  match a, b with
  | x :: a', y :: b' =>
      if JsString.eqb x y then S (commonPrefixLen a' b') else 0
  | _, _ => 0
  end.

(** A needle and a haystack that match, lower-cased. *)
Definition matchingPair (nh : str * str) : bool :=
  JsString.includes (JsString.toLowerCase (snd nh)) (JsString.toLowerCase (fst nh)).

Definition isTestSegment (segment : str) : bool :=
  JsString.eqb segment "tests" || JsString.eqb segment "test" ||
  JsString.eqb segment "tst".

(** Some segment of the path is [tests], [test] or [tst]. *)
Definition containsTestSegment (normalizedFilePath : str) : bool :=
  existsb isTestSegment (JsString.split "/" normalizedFilePath).

(** The successive matches of a pattern in a text, each searched from
    the end of the one before, starting at index [from]. *)
Inductive successiveMatches (re : RegExp.t) (content : str)
    : nat -> list RegExp.matchArray -> Prop :=
| matches_done (from : nat) :
    RegExp.search (RegExp.multiline re) content (RegExp.pattern re) from = None ->
    successiveMatches re content from []
| matches_next (from i e : nat) (caps : RegExp.captures) (ms : list RegExp.matchArray) :
    RegExp.search (RegExp.multiline re) content (RegExp.pattern re) from
      = Some (i, (e, caps)) ->
    successiveMatches re content e ms ->
    successiveMatches re content from (RegExp.mkMatch content i e caps :: ms).

(** Matches in text order that do not overlap, none starting before
    [from]. *)
Fixpoint inOrderFrom (from : nat) (ms : list RegExp.matchArray) : Prop :=
  match ms with
  | [] => True
  | m :: rest =>
      from <= RegExp.index m /\ RegExp.index m <= RegExp.endIndex m /\
      inOrderFrom (RegExp.endIndex m) rest
  end.

(** No search started in [0 .. length content] ends in an empty match. *)
Definition neverEmpty (re : RegExp.t) (content : str) : bool :=
  forallb
    (fun from =>
       match RegExp.search (RegExp.multiline re) content (RegExp.pattern re) from with
       | Some (i, (e, _)) => i <? e
       | None => true
       end)
    (List.seq 0 (S (length content))).

(** The least number of iterations a quantifier runs. *)
Definition leastCount (min : nat) (max : option nat) : nat :=
  match max with
  | Some n => Nat.min min n
  | None => min
  end.

(** A lower bound on the length of every match of a pattern. *)
Fixpoint minLength (r : RegExp.regex) : nat :=
  match r with
  | RegExp.Chr _ | RegExp.Dot | RegExp.Class _ _ => 1
  | RegExp.Seq r1 r2 => minLength r1 + minLength r2
  | RegExp.Alt r1 r2 => Nat.min (minLength r1) (minLength r2)
  | RegExp.Repeat min max r1 => leastCount min max * minLength r1
  | RegExp.Group _ r1 => minLength r1
  | _ => 0
  end.

(** The indices a matcher started at [i] can continue at. *)
Definition reach (s : str) (i j : nat) : Prop :=
  i <= j /\ j <= Nat.max i (length s).

(** A matcher is local when its result depends on its continuation only at
    the indices it can reach. *)
Definition localMatcher (s : str)
    (m : nat -> RegExp.captures -> RegExp.continuation -> option RegExp.state) : Prop :=
  forall i caps k k',
    (forall j c, reach s i j -> k j c = k' j c) ->
    m i caps k = m i caps k'.

(** The comparison [isInDirectory] makes between two pieces. *)
Definition samePiece (caseInsensitive : bool) (a b : str) : bool :=
  if caseInsensitive
  then JsString.eqb (JsString.toLowerCase a) (JsString.toLowerCase b)
  else JsString.eqb a b.

(** The pieces [l1] are the first pieces of [l2], piece by piece. *)
Fixpoint piecesPrefix (caseInsensitive : bool) (l1 l2 : list str) : bool :=
  match l1, l2 with
  | [], _ => true
  | x :: l1', y :: l2' => samePiece caseInsensitive x y && piecesPrefix caseInsensitive l1' l2'
  | _ :: _, [] => false
  end.


(** *** What a pattern matches

    [matches m s r i j]: the piece of [s] from index [i] to index [j] is
    matched by [r], [m] being the multiline flag. *)

(** One code unit satisfying [p] lies at [i], and [j] is the next index. *)
Definition unitAt (s : str) (p : ascii -> bool) (i j : nat) : Prop :=
  exists c, nth_error s i = Some c /\ p c = true /\ j = S i.

(** [n] pieces in a row, each related by [P]. *)
Fixpoint iterate (P : nat -> nat -> Prop) (n : nat) (i j : nat) : Prop :=
  match n with
  | 0 => j = i
  | S n' => exists l, P i l /\ iterate P n' l j
  end.

(** The iteration counts a quantifier allows: at least [min], and at most
    [max]. *)
Definition countAllowed (min : nat) (max : option nat) (n : nat) : Prop :=
  match max with
  | None => min <= n
  | Some most => n <= most /\ (min <= n \/ n = most)
  end.

Fixpoint matches (m : bool) (s : str) (r : RegExp.regex) (i j : nat) : Prop :=
  match r with
  | RegExp.Empty => j = i
  | RegExp.Chr c => unitAt s (Ascii.eqb c) i j
  | RegExp.Dot => unitAt s (fun c => negb (RegExp.isLineTerminator c)) i j
  | RegExp.Class negated atoms =>
      unitAt s (fun c => xorb negated (existsb (RegExp.inAtom c) atoms)) i j
  | RegExp.Seq r1 r2 => exists l, matches m s r1 i l /\ matches m s r2 l j
  | RegExp.Alt r1 r2 => matches m s r1 i j \/ matches m s r2 i j
  | RegExp.Repeat min max r1 =>
      exists n, countAllowed min max n /\ iterate (matches m s r1) n i j
  | RegExp.Group _ r1 => matches m s r1 i j
  | RegExp.Bol => RegExp.atBol m s i = true /\ j = i
  | RegExp.Eol => RegExp.atEol m s i = true /\ j = i
  | RegExp.LookBehind r1 => j = i /\ exists l, l <= i /\ matches m s r1 l i
  end.

(** A continuation accepts index [j] when it succeeds there with some
    captures; it is blind from [i] on when its success at the indices
    reached from [i] does not depend on the captures. *)
Definition accepts (k : RegExp.continuation) (j : nat) : Prop :=
  exists c, k j c <> None.

Definition blindFrom (s : str) (i : nat) (k : RegExp.continuation) : Prop :=
  forall j c c', reach s i j -> k j c <> None -> k j c' <> None.

(** The piece of [s] from index [i] to index [j] is [x]. *)
Definition spans (s : str) (i j : nat) (x : str) : Prop :=
  exists before after, s = before ++ x ++ after /\ length before = i /\ j = i + length x.

(** Patterns without [^], [$] and look-behind, and the strings such a
    pattern matches from end to end. *)
Fixpoint anchorFree (r : RegExp.regex) : bool :=
  match r with
  | RegExp.Seq r1 r2 | RegExp.Alt r1 r2 => anchorFree r1 && anchorFree r2
  | RegExp.Repeat _ _ r1 | RegExp.Group _ r1 => anchorFree r1
  | RegExp.Bol | RegExp.Eol | RegExp.LookBehind _ => false
  | _ => true
  end.

Fixpoint language (r : RegExp.regex) (x : str) : Prop :=
  match r with
  | RegExp.Empty => x = ""
  | RegExp.Chr c => x = [c]
  | RegExp.Dot => exists c, x = [c] /\ RegExp.isLineTerminator c = false
  | RegExp.Class negated atoms =>
      exists c, x = [c] /\ xorb negated (existsb (RegExp.inAtom c) atoms) = true
  | RegExp.Seq r1 r2 => exists a b, x = a ++ b /\ language r1 a /\ language r2 b
  | RegExp.Alt r1 r2 => language r1 x \/ language r2 x
  | RegExp.Repeat min max r1 =>
      exists pieces, countAllowed min max (length pieces)
                     /\ Forall (language r1) pieces /\ x = concat pieces
  | RegExp.Group _ r1 => language r1 x
  | RegExp.Bol | RegExp.Eol | RegExp.LookBehind _ => False
  end.

(** What [.+] matches: one or more code units, none a line terminator. *)
Definition dotPlus (x : str) : Prop :=
  x <> "" /\ forallb (fun c => negb (RegExp.isLineTerminator c)) x = true.

Definition isHexDigit (c : ascii) : bool :=
  existsb (Ascii.eqb c) "0123456789abcdef".

(** The random bytes drawn before attempt [i], [drawn0] of them before
    attempt 0: four for each earlier attempt that is neither attempt 0
    nor below [max]. *)
Definition drawnBefore (max drawn0 i : nat) : nat :=
  drawn0 + 4 * (i - Nat.max max 1).

(** The candidate of attempt [i]: [name+suffix] for attempt 0, the
    counter [i] below [max], a random token from then on. *)
Definition nthCandidate (randomByte : nat -> byte) (name suffix : str)
    (max drawn0 i : nat) : str :=
  if i =? 0 then name ++ suffix
  else if i <? max then name ++ "-" ++ JsString.ofNat i ++ suffix
  else
    name ++ "-"
    ++ JsString.toHex (map randomByte (List.seq (drawnBefore max drawn0 i) 4))
    ++ suffix.

End Spec.

Import JsString RegExp CodeParsingUtil FilesystemUtilities EditorUtilities Spec.

(** * Strings and slices *)

Lemma eqb_eq (a b : str) : JsString.eqb a b = true <-> a = b.
Proof.
  revert b; induction a as [|x a IH]; intros [|y b]; simpl; split;
    try congruence; try reflexivity.
  - intros H. apply andb_true_iff in H as [Hx Hr].
    apply Ascii.eqb_eq in Hx. apply IH in Hr. congruence.
  - intros H; inversion H; subst.
    rewrite Ascii.eqb_refl. simpl. now apply IH.
Qed.

Lemma eqb_refl (a : str) : JsString.eqb a a = true.
Proof. now apply eqb_eq. Qed.

Lemma eqb_neq (a b : str) : JsString.eqb a b = false <-> a <> b.
Proof.
  split.
  - intros H E. apply eqb_eq in E. congruence.
  - intros H. destruct (JsString.eqb a b) eqn:E; [|reflexivity].
    apply eqb_eq in E. contradiction.
Qed.

Lemma eqb_sym (a b : str) : JsString.eqb a b = JsString.eqb b a.
Proof.
  destruct (JsString.eqb b a) eqn:E.
  - apply eqb_eq in E. subst. apply eqb_refl.
  - apply eqb_neq. apply eqb_neq in E. congruence.
Qed.

Lemma startsWith_prefix (s p : str) : startsWith s p = true <-> PrefixOf p s.
Proof.
  revert s; induction p as [|x p IH]; intros s; simpl.
  - split; [intros _; now exists s | reflexivity].
  - destruct s as [|y s].
    + split; [discriminate | intros [t Ht]; discriminate].
    + rewrite andb_true_iff, Ascii.eqb_eq, IH. split.
      * intros [-> [t ->]]. now exists t.
      * intros [t Ht]. simpl in Ht. inversion Ht; subst. split; [reflexivity | now exists t].
Qed.

Lemma includes_substring (s p : str) : includes s p = true <-> Substring p s.
Proof.
  induction s as [|c s IH].
  - simpl. rewrite orb_false_r, startsWith_prefix. split.
    + intros [t Ht]. now exists [], t.
    + intros [b [a H]]. destruct b; [now exists a | discriminate].
  - cbn [includes]. rewrite orb_true_iff, startsWith_prefix, IH. split.
    + intros [[t Ht] | [b [a H]]].
      * now exists [], t.
      * exists (c :: b), a. simpl. now rewrite H.
    + intros [b [a H]]. destruct b as [|c' b].
      * left. now exists a.
      * right. simpl in H. inversion H; subst. now exists b, a.
Qed.

Lemma includes_empty (s : str) : includes s "" = true.
Proof. destruct s; reflexivity. Qed.

Lemma slice_from (A : Type) (l : list A) (i : nat) :
  slice l (Z.of_nat i) None = skipn i l.
Proof.
  unfold slice, relativeIndex.
  destruct (Z.ltb_spec (Z.of_nat i) 0) as [H|_]; [lia|].
  rewrite Nat2Z.id.
  destruct (Nat.le_gt_cases i (length l)) as [H|H].
  - rewrite Nat.min_l by exact H.
    apply firstn_all2. rewrite length_skipn. lia.
  - rewrite Nat.min_r by lia.
    rewrite !skipn_all2 by lia. now rewrite firstn_nil.
Qed.

Lemma slice_upto (A : Type) (l : list A) (i : nat) :
  slice l 0 (Some (Z.of_nat i)) = firstn i l.
Proof.
  unfold slice, relativeIndex. simpl (0 <? 0)%Z. cbv iota.
  destruct (Z.ltb_spec (Z.of_nat i) 0) as [H|_]; [lia|].
  rewrite Nat2Z.id. change (Z.to_nat 0) with 0. rewrite Nat.min_0_l, Nat.sub_0_r.
  simpl skipn.
  destruct (Nat.le_gt_cases i (length l)) as [H|H].
  - now rewrite Nat.min_l.
  - rewrite Nat.min_r by lia. rewrite !firstn_all2; [reflexivity | lia | lia].
Qed.

Lemma slice_last (A : Type) (l : list A) (i : nat) :
  0 < i -> slice l (- Z.of_nat i) None = skipn (length l - i) l.
Proof.
  intros Hi. unfold slice, relativeIndex.
  destruct (Z.ltb_spec (- Z.of_nat i) 0) as [_|H]; [|lia].
  replace (Z.to_nat (Z.max (Z.of_nat (length l) + - Z.of_nat i) 0)) with (length l - i) by lia.
  apply firstn_all2. rewrite length_skipn. lia.
Qed.

Lemma slice_butlast (A : Type) (l : list A) :
  slice l 0 (Some (Z.of_nat (length l) - 1)%Z) = removelast l.
Proof.
  destruct l as [|x l'] eqn:E; [reflexivity|]. rewrite <- E.
  assert (Hlen : length l = S (length l')) by (subst; reflexivity).
  replace (Z.of_nat (length l) - 1)%Z with (Z.of_nat (length l')) by lia.
  rewrite slice_upto, removelast_firstn_len. f_equal. lia.
Qed.

(** * getPrefixSuffixOverlap *)

(** What the loop leaves in [i]: an overlap length, and no longer one up to
    the starting value. *)
Lemma overlapLoop_spec (a b : str) (n : nat) :
  let r := overlapLoop a b n in
  r <= n /\
  (r = 0 \/ firstn r b = skipn (length a - r) a) /\
  forall j, r < j <= n -> firstn j b <> skipn (length a - j) a.
Proof.
  induction n as [|n IH]; cbn zeta.
  - simpl. split; [lia | split; [now left | intros j Hj; lia]].
  - cbn [overlapLoop]. rewrite slice_upto, slice_last by lia.
    destruct (JsString.eqb (firstn (S n) b) (skipn (length a - S n) a)) eqn:E.
    + apply eqb_eq in E. split; [lia | split; [right; exact E | intros j Hj; lia]].
    + apply eqb_neq in E. destruct IH as [Hle [Hov Hmax]].
      split; [lia | split; [exact Hov |]].
      intros j Hj. destruct (Nat.eq_dec j (S n)) as [->|Hne]; [exact E|].
      apply Hmax. lia.
Qed.

Lemma suffix_as_skipn (s a : str) :
  SuffixOf s a -> length s <= length a /\ s = skipn (length a - length s) a.
Proof.
  intros [p ->]. rewrite length_app. split; [lia|].
  replace (length p + length s - length s) with (length p) by lia.
  now rewrite skipn_app, skipn_all, Nat.sub_diag.
Qed.

Lemma prefix_as_firstn (s b : str) :
  PrefixOf s b -> length s <= length b /\ s = firstn (length s) b.
Proof.
  intros [q ->]. rewrite length_app. split; [lia|].
  now rewrite firstn_app, firstn_all, Nat.sub_diag, firstn_O, app_nil_r.
Qed.

(** C5: [getPrefixSuffixOverlap a b] is a suffix of [a] and a prefix of [b],
    no string that is both is longer, it is empty when only the empty
    string is both, and [getPrefixSuffixOverlap s s] is [s]. *)
Theorem getPrefixSuffixOverlap_longest (a b : str) :
  let r := getPrefixSuffixOverlap a b in
  SuffixOf r a /\ PrefixOf r b /\
  (forall s, SuffixOf s a -> PrefixOf s b -> length s <= length r) /\
  ((forall s, SuffixOf s a -> PrefixOf s b -> s = "") -> r = "") /\
  getPrefixSuffixOverlap a a = a.
Proof.
  assert (Hmain : forall x y : str,
    let r := getPrefixSuffixOverlap x y in
    SuffixOf r x /\ PrefixOf r y /\
    (forall s, SuffixOf s x -> PrefixOf s y -> length s <= length r)).
  { intros x y. unfold getPrefixSuffixOverlap. cbn zeta. rewrite slice_upto.
    set (n := Nat.min (length x) (length y)).
    destruct (overlapLoop_spec x y n) as [Hle [Hov Hmax]].
    set (i := overlapLoop x y n) in *.
    assert (Hlen : length (firstn i y) = i) by (apply firstn_length_le; lia).
    split; [|split].
    - destruct Hov as [H0 | H].
      + rewrite H0. exists x. simpl. now rewrite app_nil_r.
      + rewrite H. exists (firstn (length x - i) x). now rewrite firstn_skipn.
    - exists (skipn i y). now rewrite firstn_skipn.
    - intros s Hs Hp. rewrite Hlen.
      destruct (suffix_as_skipn _ _ Hs) as [Hsa Es].
      destruct (prefix_as_firstn _ _ Hp) as [Hsb Ep].
      destruct (Nat.le_gt_cases (length s) i) as [H|H]; [exact H|].
      exfalso. apply (Hmax (length s)); [lia | congruence]. }
  cbn zeta. destruct (Hmain a b) as [Hs [Hp Hmax]].
  repeat split; try assumption.
  - intros Hnone. now apply Hnone.
  - destruct (Hmain a a) as [_ [[q Hq] Hlong]].
    assert (Hl : length a <= length (getPrefixSuffixOverlap a a)).
    { apply Hlong; [now exists [] | exists []; now rewrite app_nil_r]. }
    destruct q as [|c q]; [now rewrite app_nil_r in Hq|].
    apply (f_equal (@length ascii)) in Hq. rewrite length_app in Hq. simpl in Hq. lia.
Qed.

Lemma getPrefixSuffixOverlap_longest_witness :
  SuffixOf (getPrefixSuffixOverlap "adwg31" "31ggrs") "adwg31"
  /\ length "31" <= length (getPrefixSuffixOverlap "adwg31" "31ggrs").
Proof.
  destruct (getPrefixSuffixOverlap_longest "adwg31" "31ggrs") as [Hs [_ [Hmax _]]].
  split; [exact Hs|].
  apply Hmax; [exists "adwg" | exists "ggrs"]; reflexivity.
Defined.

Lemma getPrefixSuffixOverlap_example :
  getPrefixSuffixOverlap "adwg31" "31ggrs" = "31"
  /\ getPrefixSuffixOverlap "abc" "xyz" = ""
  /\ getPrefixSuffixOverlap "toolkit" "toolkit" = "toolkit".
Proof. repeat split. Qed.

(** * getFileDistance *)

Lemma skipn_nth_cons (A : Type) (l : list A) (i : nat) (d : A) :
  i < length l -> skipn i l = nth i l d :: skipn (S i) l.
Proof.
  revert i; induction l as [|x l IH]; intros i Hi; simpl in Hi; [lia|].
  destruct i as [|i]; [reflexivity|].
  cbn [skipn nth]. apply IH. lia.
Qed.

Lemma commonPrefixLen_sym (a b : list str) :
  commonPrefixLen a b = commonPrefixLen b a.
Proof.
  revert b; induction a as [|x a IH]; intros [|y b]; simpl; try reflexivity.
  rewrite (eqb_sym y x). destruct (JsString.eqb x y); [now rewrite IH | reflexivity].
Qed.

Lemma commonPrefixLen_bound (a b : list str) :
  commonPrefixLen a b <= length a /\ commonPrefixLen a b <= length b.
Proof.
  revert b; induction a as [|x a IH]; intros [|y b]; simpl; try lia.
  destruct (JsString.eqb x y); simpl; [|lia].
  destruct (IH b). lia.
Qed.

Lemma commonPrefixLen_same (a : list str) : commonPrefixLen a a = length a.
Proof.
  induction a as [|x a IH]; simpl; [reflexivity|].
  now rewrite eqb_refl, IH.
Qed.

(** [commonPrefixLen] is the length of a common prefix, and of the longest
    one. *)
Lemma commonPrefixLen_longest (a b : list str) :
  firstn (commonPrefixLen a b) a = firstn (commonPrefixLen a b) b /\
  forall n, n <= length a -> n <= length b -> firstn n a = firstn n b ->
            n <= commonPrefixLen a b.
Proof.
  revert b; induction a as [|x a IH]; intros [|y b]; simpl;
    try (split; [reflexivity | intros n; lia]).
  destruct (JsString.eqb x y) eqn:E.
  - apply eqb_eq in E. subst y. destruct (IH b) as [Hc Hmax]. split.
    + simpl. now rewrite Hc.
    + intros [|n] Ha Hb Hn; [lia|]. simpl in Hn. inversion Hn.
      apply le_n_S. apply Hmax; [lia | lia | assumption].
  - apply eqb_neq in E. split; [reflexivity|].
    intros [|n] Ha Hb Hn; [lia|]. simpl in Hn. inversion Hn. contradiction.
Qed.

(** The loop stops at the end of the common prefix. *)
Lemma commonLoop_from (a b : list str) (i : nat) :
  i <= Nat.min (length a) (length b) ->
  commonLoop a b i = i + commonPrefixLen (skipn i a) (skipn i b).
Proof.
  funelim (commonLoop a b i); intros Hi.
  - rewrite (skipn_nth_cons _ filePathA i "") by lia.
    rewrite (skipn_nth_cons _ filePathB i "") by lia.
    cbn [commonPrefixLen].
    destruct (JsString.eqb (nth i filePathA "") (nth i filePathB "")); cbn [negb].
    + rewrite H by lia. lia.
    + lia.
  - assert (E : i = Nat.min (length filePathA) (length filePathB)) by lia.
    destruct (Nat.min_dec (length filePathA) (length filePathB)) as [Hm|Hm].
    + rewrite (skipn_all2 filePathA) by lia. simpl. lia.
    + rewrite (skipn_all2 filePathB) by lia.
      destruct (skipn i filePathA); simpl; lia.
Qed.

Lemma directoryPieces_removelast (normalize : str -> str) (file : str) :
  directoryPieces normalize file = removelast (split "/" (normalize file)).
Proof. unfold directoryPieces. apply slice_butlast. Qed.

Lemma getFileDistance_eq (normalize : str -> str) (x y : str) :
  let a := directoryPieces normalize x in
  let b := directoryPieces normalize y in
  getFileDistance normalize x y
  = (length a - commonPrefixLen a b) + (length b - commonPrefixLen a b).
Proof.
  cbn zeta. unfold getFileDistance.
  rewrite commonLoop_from by lia. simpl skipn. rewrite Nat.add_0_l.
  now rewrite !slice_from, !length_skipn.
Qed.

(** C4: with [a] and [b] the directory segments of [x] and [y] (the pieces
    of the normalized path without the last one) and [c] the length of
    their longest common prefix, [getFileDistance x y] is
    [(length a - c) + (length b - c)]; the distance is symmetric, and it is
    0 for two files of one directory. *)
Theorem getFileDistance_formula (normalize : str -> str) (x y : str) :
  let a := removelast (split "/" (normalize x)) in
  let b := removelast (split "/" (normalize y)) in
  let c := commonPrefixLen a b in
  (firstn c a = firstn c b /\
   forall n, n <= length a -> n <= length b -> firstn n a = firstn n b -> n <= c) /\
  getFileDistance normalize x y = (length a - c) + (length b - c) /\
  getFileDistance normalize x y = getFileDistance normalize y x /\
  (a = b -> getFileDistance normalize x y = 0).
Proof.
  cbn zeta. rewrite <- !directoryPieces_removelast.
  set (a := directoryPieces normalize x). set (b := directoryPieces normalize y).
  split; [apply commonPrefixLen_longest|].
  split; [apply getFileDistance_eq|].
  split.
  - rewrite !getFileDistance_eq. fold a b.
    rewrite (commonPrefixLen_sym b a). lia.
  - intros E. rewrite getFileDistance_eq. fold a b.
    rewrite E, commonPrefixLen_same. lia.
Qed.

Lemma getFileDistance_formula_witness :
  getFileDistance PathUtils.normalize "A/B/C.java" "A/B/D.java" = 0
  /\ getFileDistance PathUtils.normalize "A/B/C.java" "A/D.java" = 1.
Proof.
  split.
  - apply (getFileDistance_formula PathUtils.normalize "A/B/C.java" "A/B/D.java").
    reflexivity.
  - reflexivity.
Defined.

(** * countSubstringMatches *)

(** The inner loop adds the number of matching haystacks to the counter. *)
Lemma inner_loop_count (str1 : str) (arr2 : list str) (count : nat) :
  fold_left
    (fun count str2 =>
       if includes (toLowerCase str2) (toLowerCase str1) then S count else count)
    arr2 count
  = count + length (filter matchingPair (map (fun str2 => (str1, str2)) arr2)).
Proof.
  revert count; induction arr2 as [|h arr2 IH]; intros count;
    cbn [fold_left map filter length]; [lia|].
  rewrite IH. change (matchingPair (str1, h))
    with (includes (toLowerCase h) (toLowerCase str1)).
  destruct (includes (toLowerCase h) (toLowerCase str1)); cbn [length];
    [now rewrite Nat.add_succ_r | reflexivity].
Qed.

Lemma outer_loop_count (arr1 arr2 : list str) (count : nat) :
  fold_left
    (fun count str1 =>
       fold_left
         (fun count str2 =>
            if includes (toLowerCase str2) (toLowerCase str1) then S count else count)
         arr2 count)
    arr1 count
  = count + length (filter matchingPair (list_prod arr1 arr2)).
Proof.
  revert count; induction arr1 as [|n arr1 IH]; intros count;
    cbn [fold_left list_prod]; [cbn; lia|].
  rewrite IH, inner_loop_count, filter_app, length_app. apply eq_sym, Nat.add_assoc.
Qed.

(** C6: [countSubstringMatches needles haystacks] is the number of ordered
    pairs (needle, haystack), duplicates counted, in which the lower-cased
    haystack contains the lower-cased needle as a substring. *)
Theorem countSubstringMatches_counts_pairs (needles haystacks : list str) :
  countSubstringMatches needles haystacks
  = length (filter matchingPair (list_prod needles haystacks))
  /\ forall n h, matchingPair (n, h) = true
                 <-> Substring (toLowerCase n) (toLowerCase h).
Proof.
  split.
  - unfold countSubstringMatches. now rewrite outer_loop_count.
  - intros n h. unfold matchingPair. simpl. apply includes_substring.
Qed.

Lemma countSubstringMatches_counts_pairs_witness :
  countSubstringMatches ["foo"] ["Foo.java"; "bar.py"] = 1
  /\ countSubstringMatches ["a"; "a"] ["A"; "ba"; "c"] = 4.
Proof.
  split.
  - rewrite (proj1 (countSubstringMatches_counts_pairs ["foo"] ["Foo.java"; "bar.py"])).
    reflexivity.
  - rewrite (proj1 (countSubstringMatches_counts_pairs ["a"; "a"] ["A"; "ba"; "c"])).
    reflexivity.
Defined.

Lemma countSubstringMatches_app (ns1 ns2 hs : list str) :
  countSubstringMatches (ns1 ++ ns2) hs
  = countSubstringMatches ns1 hs + countSubstringMatches ns2 hs.
Proof.
  unfold countSubstringMatches. rewrite fold_left_app, !outer_loop_count.
  now rewrite !Nat.add_0_l.
Qed.

Lemma countSubstringMatches_empty_needle (hs : list str) :
  countSubstringMatches [""] hs = length hs.
Proof.
  unfold countSubstringMatches. cbn [fold_left]. rewrite inner_loop_count.
  rewrite Nat.add_0_l.
  induction hs as [|h hs IH]; [reflexivity|].
  cbn [map filter]. change (matchingPair ("", h)) with (includes (toLowerCase h) "").
  rewrite includes_empty. cbn [length]. now rewrite IH.
Qed.

(** C10: an empty needle matches every haystack:
    [countSubstringMatches [""] hs] is [length hs], and each empty string
    among the needles adds [length hs] to the count. *)
Theorem countSubstringMatches_empty_needles (hs : list str) :
  countSubstringMatches [""] hs = length hs
  /\ forall ns1 ns2,
       countSubstringMatches (ns1 ++ "" :: ns2) hs
       = countSubstringMatches (ns1 ++ ns2) hs + length hs.
Proof.
  split; [apply countSubstringMatches_empty_needle|].
  intros ns1 ns2.
  change (ns1 ++ "" :: ns2) with (ns1 ++ [""] ++ ns2).
  rewrite !countSubstringMatches_app, countSubstringMatches_empty_needle. lia.
Qed.

(** * isTestFile *)

Lemma split_nonempty (sep : ascii) (s : str) : split sep s <> [].
Proof.
  destruct s as [|c s]; simpl; [discriminate|].
  destruct (Ascii.eqb c sep); [discriminate|].
  destruct (split sep s); discriminate.
Qed.

(** Splitting at the separator and joining again gives the string back. *)
Lemma join_split (sep : ascii) (s : str) : join sep (split sep s) = s.
Proof.
  induction s as [|c s IH]; [reflexivity|].
  cbn [split]. destruct (Ascii.eqb_spec c sep) as [->|Hc].
  - pose proof (split_nonempty sep s) as Hne.
    destruct (split sep s) as [|p ps] eqn:E; [contradiction|].
    cbn [join app]. cbn [join] in IH. now rewrite IH.
  - pose proof (split_nonempty sep s) as Hne.
    destruct (split sep s) as [|p ps] eqn:E; [contradiction|].
    destruct ps as [|q ps]; cbn [join app] in *; now rewrite IH.
Qed.

(** A piece that is not the last one occurs in the joined string with the
    separator after it. *)
Lemma join_inner_piece (sep : ascii) (before after : list str) (piece : str) :
  after <> [] ->
  Substring (piece ++ [sep]) (join sep (before ++ piece :: after)).
Proof.
  intros Hafter. destruct after as [|q after]; [contradiction|].
  induction before as [|x before IH].
  - exists [], (join sep (q :: after)). cbn [app join].
    now rewrite <- app_assoc.
  - destruct IH as [b [a E]].
    exists (x ++ sep :: b), a.
    replace (join sep ((x :: before) ++ piece :: q :: after))
      with (x ++ sep :: join sep (before ++ piece :: q :: after)).
    + rewrite E. rewrite <- (app_assoc x). reflexivity.
    + cbn [app join]. destruct (before ++ piece :: q :: after) eqn:E'; [|reflexivity].
      destruct before; discriminate.
Qed.

Lemma isTestSegment_cases (segment : str) :
  isTestSegment segment = true ->
  segment = "tests" \/ segment = "test" \/ segment = "tst".
Proof.
  unfold isTestSegment. rewrite !orb_true_iff, !eqb_eq. tauto.
Qed.

(** The path heuristic, once the name heuristic has returned false. *)
Lemma isTestFile_when_name_fails (normalize : str -> str) (filePath : str)
    (languageConfig : languageConfigArg) :
  isTestFileByName (normalize filePath) (languageId languageConfig) = Returned false ->
  isTestFile normalize filePath languageConfig
  = Returned (pathContainsTest normalize filePath).
Proof.
  intros H. unfold isTestFile, pathContainsTest. rewrite H.
  rewrite orb_false_r.
  now destruct (includes (normalize filePath) "tests/" ||
                includes (normalize filePath) "test/" ||
                includes (normalize filePath) "tst/").
Qed.

(** C1, as the code has it: when the name heuristic returns false,
    [isTestFile] returns true exactly when the normalized path contains
    [tests/], [test/] or [tst/] as a substring; so it does whenever a
    segment followed by a separator is [tests], [test] or [tst]. *)
Theorem isTestFile_path_heuristic (normalize : str -> str) (filePath : str)
    (languageConfig : languageConfigArg) :
  isTestFileByName (normalize filePath) (languageId languageConfig) = Returned false ->
  let normalizedFilePath := normalize filePath in
  (exists b, isTestFile normalize filePath languageConfig = Returned b) /\
  (isTestFile normalize filePath languageConfig = Returned true
   <-> Substring "tests/" normalizedFilePath \/ Substring "test/" normalizedFilePath
       \/ Substring "tst/" normalizedFilePath) /\
  (forall before segment after,
     split "/" normalizedFilePath = before ++ segment :: after ->
     after <> [] -> isTestSegment segment = true ->
     isTestFile normalize filePath languageConfig = Returned true).
Proof.
  intros H. cbn zeta. rewrite (isTestFile_when_name_fails _ _ _ H).
  assert (Hiff : Returned (pathContainsTest normalize filePath) = Returned true
                 <-> Substring "tests/" (normalize filePath)
                     \/ Substring "test/" (normalize filePath)
                     \/ Substring "tst/" (normalize filePath)).
  { unfold pathContainsTest. rewrite <- !includes_substring. split.
    - intros E. injection E as E. rewrite !orb_true_iff in E. tauto.
    - intros E. f_equal. rewrite !orb_true_iff. tauto. }
  split; [eexists; reflexivity|]. split; [exact Hiff|].
  intros before segment after Hsplit Hafter Hseg. apply Hiff.
  pose proof (join_inner_piece "/" before after segment Hafter) as Hsub.
  rewrite <- Hsplit, join_split in Hsub.
  destruct (isTestSegment_cases _ Hseg) as [-> | [-> | ->]]; tauto.
Qed.

Lemma isTestFile_path_heuristic_witness :
  isTestFile PathUtils.normalize "src/tests/Widget.java"
    {| languageId := "java"; fileContent := None |} = Returned true.
Proof.
  refine (proj2 (proj2 (isTestFile_path_heuristic PathUtils.normalize
                          "src/tests/Widget.java"
                          {| languageId := "java"; fileContent := None |} _))
            ["src"] "tests" ["Widget.java"] _ _ _).
  - reflexivity.
  - reflexivity.
  - discriminate.
  - reflexivity.
Defined.

(** C1, as stated, fails: [latest/widget.go] has no segment [tests], [test]
    or [tst] and its language has no patterns, yet it is classified as a
    test file, for [latest/] ends in [test/]. *)
Lemma isTestFile_latest_counterexample :
  isTestFileByName (PathUtils.normalize "latest/widget.go") "go" = Returned false
  /\ containsTestSegment (PathUtils.normalize "latest/widget.go") = false
  /\ isTestFile PathUtils.normalize "latest/widget.go"
       {| languageId := "go"; fileContent := None |} = Returned true.
Proof. repeat split. Qed.

(** A language that is neither a key of the table nor a member of
    [Object.prototype] leaves the decision to the path heuristic. *)
Lemma isTestFile_undefined_language (normalize : str -> str) (filePath : str)
    (languageConfig : languageConfigArg) :
  getProperty (languageId languageConfig) = Undefined ->
  isTestFile normalize filePath languageConfig
  = Returned (pathContainsTest normalize filePath).
Proof.
  intros H. apply isTestFile_when_name_fails.
  unfold isTestFileByName. now rewrite H.
Qed.

Lemma isTestFile_go_example :
  isTestFile PathUtils.normalize "src/widget.go"
    {| languageId := "go"; fileContent := None |} = Returned false
  /\ isTestFile PathUtils.normalize "src/WidgetTest.java"
       {| languageId := "java"; fileContent := None |} = Returned true.
Proof. split; reflexivity. Qed.

(** C8, at the failing input: [constructor] is no key of the table, but
    the lookup finds the member of that name inherited from
    [Object.prototype]; it is truthy and has no [testFilenamePattern], so
    the loop over the patterns throws, whatever the path is. *)
Theorem isTestFile_constructor_throws (normalize : str -> str) (filePath : str)
    (content : option str) :
  ownProperty "constructor" utgLanguageConfigs = None
  /\ isTestFile normalize filePath
       {| languageId := "constructor"; fileContent := content |}
     = Thrown "TypeError: testFilenamePattern is not iterable".
Proof. split; reflexivity. Qed.

(** C9: the decision does not depend on [fileContent]. *)
Theorem isTestFile_ignores_fileContent (normalize : str -> str) (filePath language : str)
    (c1 c2 : option str) :
  isTestFile normalize filePath {| languageId := language; fileContent := c1 |}
  = isTestFile normalize filePath {| languageId := language; fileContent := c2 |}.
Proof. reflexivity. Qed.

(** * isInDirectory *)

(** C2, at the failing input: the lengths are compared before the empty
    piece left by the trailing separator is popped, so the directory
    [a/b/] does not contain [a/b], while [a/b] does. *)
Theorem isInDirectory_trailing_separator (normalizeSeparator : str -> str) (win32 : bool) :
  normalizeSeparator "a/b/" = "a/b/" ->
  normalizeSeparator "a/b" = "a/b" ->
  isInDirectory normalizeSeparator win32 "a/b/" "a/b" = false
  /\ isInDirectory normalizeSeparator win32 "a/b" "a/b" = true.
Proof.
  intros Hd Hp. unfold isInDirectory. cbn [JsString.eqb orb].
  rewrite Hd, Hp. destruct win32; split; reflexivity.
Qed.

Lemma isInDirectory_trailing_separator_witness :
  isInDirectory PathUtils.normalizeSeparator false "a/b/" "a/b" = false
  /\ isInDirectory PathUtils.normalizeSeparator false "a/b" "a/b" = true.
Proof.
  apply (isInDirectory_trailing_separator PathUtils.normalizeSeparator false);
    reflexivity.
Defined.

Lemma isInDirectory_examples :
  isInDirectory PathUtils.normalizeSeparator false "a/b" "a/b/c" = true
  /\ isInDirectory PathUtils.normalizeSeparator false "a/b/" "a/b/c" = true
  /\ isInDirectory PathUtils.normalizeSeparator false "a/bc" "a/b" = false
  /\ isInDirectory PathUtils.normalizeSeparator false "" "a/b" = true.
Proof. repeat split. Qed.

(** * getNonexistentFilename *)

Section ProbingProofs.
Variable exists_ : str -> bool.
Variable join : str -> str -> str.
Variable randomByte : nat -> byte.
Variables dir name suffix : str.
Variable max : nat.

Lemma candidate_nth (d0 i : nat) (w : world) :
  drawn w = drawnBefore max d0 i ->
  exists w',
    candidate randomByte name suffix max i w = (nthCandidate randomByte name suffix max d0 i, w')
    /\ drawn w' = drawnBefore max d0 (S i) /\ probes w' = probes w.
Proof.
  intros Hw. unfold candidate, nthCandidate, drawnBefore in *.
  destruct (Nat.eqb_spec i 0) as [->|Hi].
  - exists w. split; [reflexivity | split; [rewrite Hw; lia | reflexivity]].
  - destruct (Nat.ltb_spec i max) as [Hlt|Hge].
    + exists w. split; [reflexivity | split; [rewrite Hw; lia | reflexivity]].
    + unfold randomBytes. rewrite Hw.
      eexists. split; [reflexivity | split; [cbn [drawn]; lia | reflexivity]].
Qed.

(** The loop from attempt [i]: it returns at some attempt [k] of at most
    [max + 99], having probed the candidates [i..k] in order, of which all
    but the last exist, and the last does not exist unless [k] is
    [max + 99]. *)
Lemma attempts_spec (d0 fuel i : nat) (w : world) :
  drawn w = drawnBefore max d0 i ->
  i <= max + 99 ->
  max + 100 <= fuel + i ->
  exists k w',
    attempts exists_ join randomByte fuel dir name suffix max i w
      = Some (nthCandidate randomByte name suffix max d0 k, w')
    /\ i <= k <= max + 99
    /\ probes w' = probes w ++ map (fun j => join dir (nthCandidate randomByte name suffix max d0 j))
                                    (List.seq i (S k - i))
    /\ (forall j, i <= j < k -> exists_ (join dir (nthCandidate randomByte name suffix max d0 j)) = true)
    /\ (exists_ (join dir (nthCandidate randomByte name suffix max d0 k)) = false \/ k = max + 99).
Proof.
  revert i w. induction fuel as [|fuel IH]; intros i w Hw Hi Hfuel; [lia|].
  cbn [attempts].
  destruct (candidate_nth d0 i w Hw) as [w1 [Hc [Hd1 Hp1]]].
  rewrite Hc. unfold probe.
  destruct (exists_ (join dir (nthCandidate randomByte name suffix max d0 i))) eqn:Ex; cbn [negb orb].
  - destruct (Nat.leb_spec (max + 99) i) as [Hcap|Hcap].
    + exists i. eexists. split; [reflexivity|].
      split; [lia|]. split.
      * cbn [probes]. rewrite Hp1.
        replace (S i - i) with 1 by lia. reflexivity.
      * split; [intros j Hj; lia | right; lia].
    + destruct (IH (S i) {| drawn := drawn w1;
                            probes := probes w1 ++ [join dir (nthCandidate randomByte name suffix max d0 i)] |})
        as [k [w' [Hrun [Hk [Hprobes [Hall Hlast]]]]]]; [exact Hd1 | lia | lia |].
      exists k, w'. split; [exact Hrun|]. split; [lia|]. split.
      * rewrite Hprobes. cbn [probes]. rewrite Hp1, <- app_assoc.
        replace (S k - i) with (S (S k - S i)) by lia. reflexivity.
      * split; [|exact Hlast].
        intros j Hj. destruct (Nat.eq_dec j i) as [->|Hne]; [exact Ex|].
        apply Hall. lia.
  - exists i. eexists. split; [reflexivity|].
    split; [lia|]. split.
    + cbn [probes]. rewrite Hp1.
      replace (S i - i) with 1 by lia. reflexivity.
    + split; [intros j Hj; lia | left; exact Ex].
Qed.

End ProbingProofs.

Lemma hexOfByte_digits (b : byte) :
  length (hexOfByte b) = 2 /\ forallb isHexDigit (hexOfByte b) = true.
Proof. destruct b; split; reflexivity. Qed.

(** The token of four random bytes is eight hexadecimal digits. *)
Lemma toHex_four_bytes (randomByte : nat -> byte) (from : nat) :
  let token := toHex (map randomByte (List.seq from 4)) in
  length token = 8 /\ forallb isHexDigit token = true.
Proof.
  cbn zeta. unfold toHex. cbn [List.seq map concat].
  rewrite app_nil_r, !length_app, !forallb_app.
  rewrite !(proj1 (hexOfByte_digits _)), !(proj2 (hexOfByte_digits _)).
  split; reflexivity.
Qed.

(** C3, as the code has it: [getNonexistentFilename] throws exactly when
    [name] is empty or [dir] is no directory.  Otherwise it returns the
    candidate of some attempt [k <= max + 99], after probing the candidates
    of the attempts [0..k] in order, so after at most [max + 100] probes: the
    earlier candidates exist, and the returned one does not exist unless
    [k = max + 99].  Candidate 0 is [name+suffix]; candidate [i] is
    [name-i+suffix] for [0 < i < max], and [name-token+suffix] with a token
    of eight hexadecimal digits for the other [i > 0]. *)
Theorem getNonexistentFilename_probes
    (existsDir exists_ : str -> bool) (join : str -> str -> str)
    (randomByte : nat -> byte) (dir name suffix : str) (max : option nat)
    (w : world) (fuel : nat) :
  let m := match max with Some m => m | None => 99 end in
  let run := getNonexistentFilename existsDir exists_ join randomByte
               fuel dir name suffix max w in
  let cand := nthCandidate randomByte name suffix m (drawn w) in
  m + 100 <= fuel ->
  ((name = "" \/ existsDir dir = false) ->
   exists message, run = Some (Thrown message, w))
  /\ (name <> "" -> existsDir dir = true ->
      exists k w',
        run = Some (Returned (cand k), w')
        /\ k <= m + 99
        /\ probes w' = probes w ++ map (fun j => join dir (cand j)) (List.seq 0 (S k))
        /\ (forall j, j < k -> exists_ (join dir (cand j)) = true)
        /\ (exists_ (join dir (cand k)) = false \/ k = m + 99))
  /\ cand 0 = name ++ suffix
  /\ (forall i, 0 < i < m -> cand i = name ++ "-" ++ ofNat i ++ suffix)
  /\ (forall i, 0 < i -> m <= i ->
      exists token, cand i = name ++ "-" ++ token ++ suffix
                    /\ length token = 8 /\ forallb isHexDigit token = true).
Proof.
  cbn zeta. set (m := match max with Some m => m | None => 99 end).
  intros Hfuel. unfold getNonexistentFilename. fold m.
  split; [|split; [|split; [|split]]].
  - intros [-> | Hdir].
    + eexists. reflexivity.
    + destruct (JsString.eqb name ""); [eexists; reflexivity|].
      rewrite Hdir. eexists. reflexivity.
  - intros Hname Hdir.
    apply eqb_neq in Hname. rewrite Hname, Hdir. cbn [negb].
    destruct (attempts_spec exists_ join randomByte dir name suffix m (drawn w) fuel 0 w)
      as [k [w' [Hrun [Hk [Hprobes [Hall Hlast]]]]]].
    + unfold drawnBefore. lia.
    + lia.
    + lia.
    + exists k, w'. rewrite Hrun. split; [reflexivity|]. split; [lia|].
      split; [now rewrite Hprobes, Nat.sub_0_r|].
      split; [intros j Hj; apply Hall; lia | exact Hlast].
  - reflexivity.
  - intros i Hi. unfold nthCandidate.
    destruct (Nat.eqb_spec i 0) as [E|_]; [lia|].
    destruct (Nat.ltb_spec i m) as [_|E]; [reflexivity | lia].
  - intros i Hi Hm. unfold nthCandidate.
    destruct (Nat.eqb_spec i 0) as [E|_]; [lia|].
    destruct (Nat.ltb_spec i m) as [E|_]; [lia|].
    eexists. split; [reflexivity|]. apply toHex_four_bytes.
Qed.

Lemma getNonexistentFilename_probes_witness :
  exists k w',
    getNonexistentFilename (fun _ => true)
      (fun p => JsString.eqb p "d/foo.txt" || JsString.eqb p "d/foo-1.txt")
      (fun d f => d ++ "/" ++ f) (fun _ => x00) 200 "d" "foo" ".txt" (Some 3) initial
    = Some (Returned (nthCandidate (fun _ => x00) "foo" ".txt" 3 0 k), w')
    /\ k <= 3 + 99.
Proof.
  destruct (getNonexistentFilename_probes (fun _ => true)
              (fun p => JsString.eqb p "d/foo.txt" || JsString.eqb p "d/foo-1.txt")
              (fun d f => d ++ "/" ++ f) (fun _ => x00) "d" "foo" ".txt" (Some 3)
              initial 200) as [_ [Hrun _]]; [lia|].
  destruct Hrun as [k [w' [Hrun [Hk _]]]]; [discriminate | reflexivity |].
  exists k, w'. split; [exact Hrun | exact Hk].
Defined.

Lemma getNonexistentFilename_example :
  getNonexistentFilename (fun _ => true)
    (fun p => JsString.eqb p "d/foo.txt" || JsString.eqb p "d/foo-1.txt")
    (fun d f => d ++ "/" ++ f) (fun _ => x00) 200 "d" "foo" ".txt" (Some 3) initial
  = Some (Returned "foo-2.txt",
          {| drawn := 0; probes := ["d/foo.txt"; "d/foo-1.txt"; "d/foo-2.txt"] |}).
Proof. reflexivity. Qed.

(** C3, as stated, fails on the number of probes: in a directory where
    every candidate exists and with [max = 1], the call probes 101
    candidates, one more than [max + 99]. *)
Lemma getNonexistentFilename_probe_count_counterexample :
  exists filename w',
    getNonexistentFilename (fun _ => true) (fun _ => true)
      (fun d f => d ++ "/" ++ f) (fun _ => x00) 200 "d" "foo" ".txt" (Some 1) initial
    = Some (Returned filename, w')
    /\ length (probes w') = 1 + 100
    /\ ~ length (probes w') <= 1 + 99.
Proof.
  eexists. eexists. split; [vm_compute; reflexivity|].
  split; [reflexivity | cbn; lia].
Qed.

(** * extractFunctions *)

(** A search finds nothing before the index it starts at, and nothing at
    all when started beyond the end of the text. *)
Lemma search_from (m : bool) (s : str) (r : regex) (from i : nat) (st : state) :
  search m s r from = Some (i, st) -> from <= i.
Proof.
  unfold search. generalize (S (length s) - from) as n.
  intros n; revert from. induction n as [|n IH]; intros from H; [discriminate|].
  destruct (matchAt m s r from [] (fun e caps => Some (e, caps))) as [st'|].
  - injection H as <- _. lia.
  - apply IH in H. lia.
Qed.

Lemma search_beyond (m : bool) (s : str) (r : regex) (from : nat) :
  length s < from -> search m s r from = None.
Proof.
  intros H. unfold search.
  replace (S (length s) - from) with 0 by lia. reflexivity.
Qed.

Lemma neverEmpty_progress (re : RegExp.t) (content : str) (from i e : nat)
    (caps : captures) :
  neverEmpty re content = true ->
  search (multiline re) content (pattern re) from = Some (i, (e, caps)) ->
  from <= i /\ i < e.
Proof.
  intros Hne Hs. split; [exact (search_from _ _ _ _ _ _ Hs)|].
  destruct (Nat.le_gt_cases from (length content)) as [Hle|Hgt].
  - unfold neverEmpty in Hne. rewrite forallb_forall in Hne.
    specialize (Hne from). rewrite Hs in Hne.
    apply Nat.ltb_lt, Hne, in_seq. lia.
  - rewrite search_beyond in Hs by exact Hgt. discriminate.
Qed.

(** When no match is empty, the successive matches from any index form a
    finite sequence, in text order and without overlap. *)
Lemma successiveMatches_exist (re : RegExp.t) (content : str) :
  neverEmpty re content = true ->
  forall from,
  exists ms, successiveMatches re content from ms
             /\ inOrderFrom from ms
             /\ length ms <= S (length content) - from.
Proof.
  intros Hne from.
  remember (S (length content) - from) as n eqn:En.
  revert from En. induction n as [n IH] using lt_wf_ind. intros from En.
  destruct (search (multiline re) content (pattern re) from)
    as [[i [e caps]]|] eqn:Hs.
  - destruct (neverEmpty_progress _ _ _ _ _ _ Hne Hs) as [Hfrom Hlt].
    assert (Hin : from <= length content).
    { destruct (Nat.le_gt_cases from (length content)) as [H|H]; [exact H|].
      rewrite search_beyond in Hs by exact H. discriminate. }
    destruct (IH (S (length content) - e)) with (from := e)
      as [ms [Hms [Hord Hlen]]]; [lia | reflexivity |].
    exists (mkMatch content i e caps :: ms). split; [|split].
    + now apply matches_next.
    + cbn. split; [exact Hfrom | split; [lia | exact Hord]].
    + cbn [length]. lia.
  - exists []. split; [now apply matches_done | split; [exact I | cbn; lia]].
Qed.

(** The loop pushes the first group of each successive match and stops,
    leaving [lastIndex] at 0. *)
Lemma execLoop_matches (re : RegExp.t) (content : str) (from : nat)
    (ms : list matchArray) :
  successiveMatches re content from ms ->
  forall fuel names,
    global re = true ->
    length ms < fuel ->
    execLoop fuel content (setLastIndex re from) names
    = Some (names ++ map (fun m => item m 1) ms, setLastIndex re 0).
Proof.
  induction 1 as [from Hs | from i e caps ms Hs _ IH];
    intros fuel names Hg Hfuel;
    (destruct fuel as [|fuel]; [cbn in Hfuel; lia|]);
    cbn [execLoop]; unfold exec; cbn [setLastIndex global lastIndex multiline pattern];
    rewrite Hg, Hs.
  - now rewrite app_nil_r.
  - change (mk (pattern re) true (multiline re) e) with
      (mk (pattern re) (global (setLastIndex re e)) (multiline re) e).
    replace (mk (pattern re) (global (setLastIndex re e)) (multiline re) e)
      with (setLastIndex re e) by (unfold setLastIndex; cbn; now rewrite Hg).
    rewrite IH by (try exact Hg; cbn [length] in Hfuel; lia).
    cbn [map]. now rewrite <- app_assoc.
Qed.

Lemma setLastIndex_same (re : RegExp.t) : setLastIndex re (lastIndex re) = re.
Proof. now destruct re. Qed.

Lemma extractFunctions_returns (content : str) (re : RegExp.t) :
  global re = true ->
  neverEmpty re content = true ->
  exists ms,
    successiveMatches re content (lastIndex re) ms
    /\ inOrderFrom (lastIndex re) ms
    /\ forall fuel,
         length content + 2 <= fuel ->
         extractFunctions fuel content (Some re)
         = Some (map (fun m => item m 1) ms, Some (setLastIndex re 0)).
Proof.
  intros Hg Hne.
  destruct (successiveMatches_exist re content Hne (lastIndex re))
    as [ms [Hms [Hord Hlen]]].
  exists ms. split; [exact Hms | split; [exact Hord|]].
  intros fuel Hfuel. unfold extractFunctions.
  pose proof (execLoop_matches re content (lastIndex re) ms Hms fuel [] Hg) as Hrun.
  rewrite setLastIndex_same in Hrun. rewrite Hrun by lia. reflexivity.
Qed.

(** C7, as the code has it: without a pattern the result is empty; for a
    pattern with the [g] flag none of whose matches in [content] is empty,
    the call returns the first capture group of each successive match, the
    matches taken in text order from [lastIndex] on and not overlapping,
    repeated names kept, and it leaves [lastIndex] at 0. *)
Theorem extractFunctions_successive_matches (content : str) :
  (forall fuel, extractFunctions fuel content None = Some ([], None))
  /\ forall re,
       global re = true ->
       neverEmpty re content = true ->
       exists ms,
         successiveMatches re content (lastIndex re) ms
         /\ inOrderFrom (lastIndex re) ms
         /\ forall fuel,
              length content + 2 <= fuel ->
              extractFunctions fuel content (Some re)
              = Some (map (fun m => item m 1) ms, Some (setLastIndex re 0)).
Proof.
  split; [reflexivity|].
  intros re Hg Hne. now apply extractFunctions_returns.
Qed.

Lemma extractFunctions_successive_matches_witness :
  exists ms,
    successiveMatches pythonFunctionPattern
      ("def foo():" ++ [newline] ++ " def bar():") 0 ms
    /\ inOrderFrom 0 ms
    /\ forall fuel,
         length ("def foo():" ++ [newline] ++ " def bar():") + 2 <= fuel ->
         extractFunctions fuel ("def foo():" ++ [newline] ++ " def bar():")
           (Some pythonFunctionPattern)
         = Some (map (fun m => item m 1) ms, Some (setLastIndex pythonFunctionPattern 0)).
Proof.
  apply (proj2 (extractFunctions_successive_matches
                  ("def foo():" ++ [newline] ++ " def bar():"))
           pythonFunctionPattern); reflexivity.
Defined.

Lemma extractFunctions_examples :
  extractFunctions 30 ("def foo():" ++ [newline] ++ " def bar():")
    (Some pythonFunctionPattern)
  = Some ([Some "foo"; Some "bar"], Some pythonFunctionPattern)
  /\ extractFunctions 30 "def foo(): def bar(): def foo()" (Some pythonFunctionPattern)
     = Some ([Some "foo"; Some "bar"; Some "foo"], Some pythonFunctionPattern)
  /\ extractClasses 30 ("public class Foo {" ++ [newline] ++ " public class Bar")
       (Some javaClassPattern)
     = Some ([Some "Foo"; Some "Bar"], Some javaClassPattern).
Proof. repeat split. Qed.

Lemma execLoop_without_g (re : RegExp.t) (content : str) (m : matchArray) :
  exec re content = (Some m, re) ->
  forall fuel names, execLoop fuel content re names = None.
Proof.
  intros He fuel. induction fuel as [|fuel IH]; intros names; [reflexivity|].
  cbn [execLoop]. rewrite He. apply IH.
Qed.

(** C7, as stated, fails: the import pattern of java has no [g] flag, so
    every [exec] on a text it matches starts at 0 and finds the same match;
    the loop never reaches its end, whatever the number of iterations. *)
Lemma extractFunctions_without_g_counterexample :
  ~ exists fuel result,
      extractFunctions fuel "import a.B;" (Some javaImportRegExp) = Some result.
Proof.
  intros [fuel [result H]]. unfold extractFunctions in H.
  rewrite (execLoop_without_g javaImportRegExp "import a.B;"
             (mkMatch "import a.B;" 0 11 [(1, (9, 10))])) in H;
    [discriminate | reflexivity].
Qed.

(** * Patterns that cannot match the empty string *)

Lemma oneUnit_advances (s : str) (p : ascii -> bool) (i : nat) (caps : captures)
    (k : continuation) (st : state) :
  oneUnit s p i caps k = Some st ->
  exists j caps', i + 1 <= j /\ k j caps' = Some st.
Proof.
  unfold oneUnit. destruct (nth_error s i) as [c|]; [|discriminate].
  destruct (p c); [|discriminate].
  intros H. exists (S i), caps. split; [lia | exact H].
Qed.

(** When every match of the atom is at least [n] long, the quantifier
    continues at least [leastCount min max * n] further on. *)
Lemma repeatMatcher_advances (m : nat -> captures -> continuation -> option state)
    (gs : list nat) (k : continuation) (n : nat) :
  (forall i caps k' st, m i caps k' = Some st ->
                        exists j caps', i + n <= j /\ k' j caps' = Some st) ->
  forall fuel min max i caps st,
    repeatMatcher m gs k fuel min max i caps = Some st ->
    exists j caps', i + leastCount min max * n <= j /\ k j caps' = Some st.
Proof.
  intros Hm. induction fuel as [|fuel IH]; intros min max i caps st H;
    [discriminate|].
  cbn [repeatMatcher] in H.
  assert (Hstep : forall min' max',
             leastCount min max = leastCount (S min') (option_map S max') ->
             min = S min' -> max = option_map S max' ->
             m i (clearGroups gs caps)
               (fun j caps' =>
                  if (min =? 0) && (j =? i) then None
                  else repeatMatcher m gs k fuel (pred min) (option_map pred max) j caps')
             = Some st ->
             exists j caps', i + leastCount min max * n <= j /\ k j caps' = Some st).
  { intros min' max' Hc -> -> Hrun.
    apply Hm in Hrun as [j1 [c1 [Hj1 Hd]]]. cbn [Nat.eqb andb pred] in Hd.
    replace (option_map pred (option_map S max')) with max' in Hd
      by (now destruct max').
    apply IH in Hd as [j [c [Hj Hk]]]. exists j, c. split; [|exact Hk].
    destruct max' as [mx|]; cbn [leastCount option_map] in *; nia. }
  assert (Hzero : min = 0 ->
             orElse (m i (clearGroups gs caps)
                       (fun j caps' =>
                          if (min =? 0) && (j =? i) then None
                          else repeatMatcher m gs k fuel (pred min)
                                 (option_map pred max) j caps'))
                    (fun _ => k i caps) = Some st ->
             exists j caps', i + leastCount min max * n <= j /\ k j caps' = Some st).
  { intros -> Hrun.
    replace (leastCount 0 max) with 0 by (now destruct max).
    destruct (m i (clearGroups gs caps) _) as [st'|] eqn:E; cbn [orElse] in Hrun.
    - injection Hrun as ->. apply Hm in E as [j1 [c1 [Hj1 Hd]]].
      cbn [Nat.eqb andb] in Hd. destruct (j1 =? i); [discriminate|].
      apply IH in Hd as [j [c [Hj Hk]]]. exists j, c. split; [lia | exact Hk].
    - exists i, caps. split; [lia | exact Hrun]. }
  destruct max as [[|mx]|].
  - exists i, caps. split; [|exact H].
    cbn [leastCount]. rewrite Nat.min_0_r. lia.
  - destruct min as [|min'].
    + now apply Hzero.
    + now apply (Hstep min' (Some mx)).
  - destruct min as [|min'].
    + now apply Hzero.
    + now apply (Hstep min' None).
Qed.

(** A successful match continues at least [minLength r] further on. *)
Lemma matchAt_advances (m : bool) (s : str) (r : regex) :
  forall i caps k st,
    matchAt m s r i caps k = Some st ->
    exists j caps', i + minLength r <= j /\ k j caps' = Some st.
Proof.
  induction r as [ | c | | negated atoms | r1 IH1 r2 IH2 | r1 IH1 r2 IH2
                   | min max r1 IH1 | n r1 IH1 | | | r1 IH1 ];
    intros i caps k st H; cbn [matchAt minLength] in *.
  - exists i, caps. split; [lia | exact H].
  - now apply oneUnit_advances in H.
  - now apply oneUnit_advances in H.
  - now apply oneUnit_advances in H.
  - apply IH1 in H as [j1 [c1 [Hj1 H]]]. apply IH2 in H as [j2 [c2 [Hj2 H]]].
    exists j2, c2. split; [lia | exact H].
  - destruct (matchAt m s r1 i caps k) as [st'|] eqn:E; cbn [orElse] in H.
    + injection H as ->. apply IH1 in E as [j [c [Hj E]]].
      exists j, c. split; [lia | exact E].
    + apply IH2 in H as [j [c [Hj H]]]. exists j, c. split; [lia | exact H].
  - now apply (repeatMatcher_advances _ _ _ _ IH1) in H.
  - apply IH1 in H as [j [c [Hj H]]]. eexists. eexists. split; [exact Hj | exact H].
  - destruct (atBol m s i); [|discriminate]. exists i, caps. split; [lia | exact H].
  - destruct (atEol m s i); [|discriminate]. exists i, caps. split; [lia | exact H].
  - destruct (tryFrom _ _ _); [|discriminate]. exists i, caps. split; [lia | exact H].
Qed.

Lemma search_advances (m : bool) (s : str) (r : regex) (from i e : nat)
    (caps : captures) :
  search m s r from = Some (i, (e, caps)) -> i + minLength r <= e.
Proof.
  unfold search. generalize (S (length s) - from) as n.
  intros n; revert from. induction n as [|n IH]; intros from H; [discriminate|].
  destruct (matchAt m s r from [] (fun e caps => Some (e, caps))) as [st'|] eqn:E.
  - injection H as <- ->. apply matchAt_advances in E as [j [c [Hj E]]].
    injection E as <- _. exact Hj.
  - now apply IH in H.
Qed.

(** A pattern whose matches take at least one code unit never matches the
    empty string, in any text. *)
Lemma neverEmpty_minLength (re : RegExp.t) (content : str) :
  0 < minLength (pattern re) -> neverEmpty re content = true.
Proof.
  intros Hlen. unfold neverEmpty. apply forallb_forall. intros from _.
  destruct (search (multiline re) content (pattern re) from)
    as [[i [e caps]]|] eqn:Hs; [|reflexivity].
  apply search_advances in Hs. apply Nat.ltb_lt. lia.
Qed.

(** X17: The function and class patterns of the table have the [g] flag and
    need at least one code unit: extraction with them returns on every
    text, and leaves the pattern as it was. *)
Lemma table_patterns_return (content : str) (re : RegExp.t) :
  In re [javaFunctionPattern; javaClassPattern;
         pythonFunctionPattern; pythonClassPattern] ->
  exists ms,
    successiveMatches re content 0 ms
    /\ forall fuel,
         length content + 2 <= fuel ->
         extractFunctions fuel content (Some re)
         = Some (map (fun m => item m 1) ms, Some re).
Proof.
  intros Hin.
  assert (H : global re = true /\ 0 < minLength (pattern re) /\ lastIndex re = 0
              /\ setLastIndex re 0 = re).
  { cbn [In] in Hin.
    destruct Hin as [<- | [<- | [<- | [<- | []]]]];
      (split; [reflexivity | split; [cbn; lia | split; reflexivity]]). }
  destruct H as [Hg [Hlen [Hl Hset]]].
  destruct (extractFunctions_returns content re Hg (neverEmpty_minLength re content Hlen))
    as [ms [Hms [_ Hrun]]].
  rewrite Hl in Hms. rewrite Hset in Hrun. now exists ms.
Qed.

(** * The iteration bound of the quantifier *)

Lemma reach_refl (s : str) (i : nat) : reach s i i.
Proof. unfold reach. lia. Qed.

Lemma reach_trans (s : str) (i j l : nat) : reach s i j -> reach s j l -> reach s i l.
Proof. unfold reach. lia. Qed.

Lemma repeatMatcher_local (s : str) (m : nat -> captures -> continuation -> option state)
    (gs : list nat) :
  localMatcher s m ->
  forall fuel min max i caps k k',
    (forall j c, reach s i j -> k j c = k' j c) ->
    repeatMatcher m gs k fuel min max i caps
    = repeatMatcher m gs k' fuel min max i caps.
Proof.
  intros Hm. induction fuel as [|fuel IH]; intros min max i caps k k' Hk;
    [reflexivity|].
  cbn [repeatMatcher].
  assert (Hd : m i (clearGroups gs caps)
                 (fun j caps' =>
                    if (min =? 0) && (j =? i) then None
                    else repeatMatcher m gs k fuel (pred min) (option_map pred max) j caps')
               = m i (clearGroups gs caps)
                   (fun j caps' =>
                      if (min =? 0) && (j =? i) then None
                      else repeatMatcher m gs k' fuel (pred min) (option_map pred max) j caps')).
  { apply Hm. intros j c Hj. destruct ((min =? 0) && (j =? i)); [reflexivity|].
    apply IH. intros l c' Hl. apply Hk. exact (reach_trans _ _ _ _ Hj Hl). }
  rewrite Hd, (Hk i caps (reach_refl s i)). reflexivity.
Qed.

Lemma matchAt_local (m : bool) (s : str) (r : regex) : localMatcher s (matchAt m s r).
Proof.
  unfold localMatcher.
  induction r as [ | c | | negated atoms | r1 IH1 r2 IH2 | r1 IH1 r2 IH2
                   | min max r1 IH1 | n r1 IH1 | | | r1 IH1 ];
    intros i caps k k' Hk; cbn [matchAt];
    try (unfold oneUnit; destruct (nth_error s i) as [c0|] eqn:E; [|reflexivity];
         rewrite Hk; [reflexivity|];
         assert (i < length s) by (apply nth_error_Some; congruence);
         unfold reach; lia).
  - apply Hk, reach_refl.
  - apply IH1. intros j c Hj. apply IH2. intros l c' Hl.
    apply Hk. exact (reach_trans _ _ _ _ Hj Hl).
  - now rewrite (IH1 i caps k k' Hk), (IH2 i caps k k' Hk).
  - now apply (repeatMatcher_local s).
  - apply IH1. intros j c Hj. now apply Hk.
  - now rewrite (Hk i caps (reach_refl s i)).
  - now rewrite (Hk i caps (reach_refl s i)).
  - now rewrite (Hk i caps (reach_refl s i)).
Qed.

(** More iterations than [min + (length s - i)] are never used: beyond
    that bound the amount of fuel does not matter. *)
Lemma repeatMatcher_fuel (s : str) (m : nat -> captures -> continuation -> option state)
    (gs : list nat) (k : continuation) :
  localMatcher s m ->
  forall fuel fuel' min max i caps,
    min + (length s - i) < fuel ->
    min + (length s - i) < fuel' ->
    repeatMatcher m gs k fuel min max i caps
    = repeatMatcher m gs k fuel' min max i caps.
Proof.
  intros Hm. induction fuel as [|fuel IH]; intros fuel' min max i caps Hf Hf'; [lia|].
  destruct fuel' as [|fuel']; [lia|].
  cbn [repeatMatcher].
  assert (Hd : m i (clearGroups gs caps)
                 (fun j caps' =>
                    if (min =? 0) && (j =? i) then None
                    else repeatMatcher m gs k fuel (pred min) (option_map pred max) j caps')
               = m i (clearGroups gs caps)
                   (fun j caps' =>
                      if (min =? 0) && (j =? i) then None
                      else repeatMatcher m gs k fuel' (pred min) (option_map pred max) j caps')).
  { apply Hm. intros j c [Hij Hj].
    destruct (Nat.eqb_spec min 0) as [Hmin|Hmin];
      destruct (Nat.eqb_spec j i) as [Hji|Hji]; cbn [andb]; try reflexivity;
      apply IH; lia. }
  now rewrite Hd.
Qed.

(** The fuel [matchAt] gives to a quantifier is enough. *)
Lemma matchAt_repeat_fuel (m : bool) (s : str) (min : nat) (max : option nat)
    (r1 : regex) (i : nat) (caps : captures) (k : continuation) (fuel : nat) :
  min + (length s - i) < fuel ->
  matchAt m s (Repeat min max r1) i caps k
  = repeatMatcher (matchAt m s r1) (groupsOf r1) k fuel min max i caps.
Proof.
  intros Hfuel. cbn [matchAt].
  apply (repeatMatcher_fuel s); [apply matchAt_local | lia | exact Hfuel].
Qed.

(** * More on isInDirectory and isTestFile *)

Lemma split_snoc_separator (sep : ascii) (s : str) :
  split sep (s ++ [sep]) = split sep s ++ [[]].
Proof.
  induction s as [|c s IH]; cbn [app split].
  - now rewrite Ascii.eqb_refl.
  - rewrite IH. destruct (Ascii.eqb c sep); [reflexivity|].
    pose proof (split_nonempty sep s) as Hne.
    destruct (split sep s); [contradiction | reflexivity].
Qed.

Lemma popEmptyPieces_snoc_empty (pieces : list str) :
  popEmptyPieces (pieces ++ [""]) = popEmptyPieces pieces.
Proof. unfold popEmptyPieces. now rewrite rev_app_distr. Qed.

(** One more separator at the end of the directory is ignored only when
    the path has more pieces than the directory: with as many pieces the
    answer becomes false. *)
Lemma isInDirectory_one_more_separator (win32 : bool) (d p : str) :
  d <> "" -> p <> "" ->
  isInDirectory PathUtils.normalizeSeparator win32 (d ++ "/") p
  = (length (split "/" (PathUtils.normalizeSeparator d))
       <? length (split "/" (PathUtils.normalizeSeparator p)))
    && isInDirectory PathUtils.normalizeSeparator win32 d p.
Proof.
  intros Hd Hp. unfold isInDirectory.
  apply eqb_neq in Hd, Hp. rewrite Hd, Hp.
  assert (Hd' : JsString.eqb (d ++ "/") "" = false).
  { apply eqb_neq. destruct d; discriminate. }
  rewrite Hd'. cbn [orb].
  assert (Hn : PathUtils.normalizeSeparator (d ++ "/")
               = PathUtils.normalizeSeparator d ++ "/").
  { unfold PathUtils.normalizeSeparator. now rewrite map_app. }
  rewrite Hn, split_snoc_separator, length_app, popEmptyPieces_snoc_empty.
  cbn [length].
  set (a := length (split "/" (PathUtils.normalizeSeparator d))).
  set (b := length (split "/" (PathUtils.normalizeSeparator p))).
  destruct (Nat.ltb_spec b (a + 1)) as [H1|H1];
    destruct (Nat.ltb_spec a b) as [H2|H2]; try lia; cbn [andb]; try reflexivity.
  destruct (Nat.ltb_spec b a) as [H3|H3]; [lia | reflexivity].
Qed.

(** Every member name of [Object.prototype] makes the name heuristic
    throw. *)
Lemma isTestFileByName_inherited_throws (filePath language : str) :
  hasKey language objectPrototypeMembers = true ->
  isTestFileByName filePath language
  = Thrown "TypeError: testFilenamePattern is not iterable".
Proof.
  unfold hasKey. rewrite existsb_exists. intros [name [Hin Hname]].
  apply eqb_eq in Hname. subst name.
  cbn [In objectPrototypeMembers] in Hin.
  repeat (destruct Hin as [<- | Hin]; [reflexivity|]).
  contradiction.
Qed.

Lemma isTestFileByName_examples :
  map (fun name => isTestFileByName ("src/" ++ name) "java")
      ["WidgetTest.java"; "WidgetTests.java"; "TestWidget.java"; "Widget.java";
       "Test.java"]
  = [Returned true; Returned true; Returned true; Returned false; Returned false]
  /\ map (fun name => isTestFileByName name "python")
         ["test_widget.py"; "widget_test.py"; "widget.py"; "test_.py"]
     = [Returned true; Returned true; Returned false; Returned false]
  /\ map (fun name => isTestFileByName name "typescript")
         ["a.test.ts"; "a.spec.tsx"; "a.ts"; ".test.ts"]
     = [Returned true; Returned true; Returned false; Returned false]
  /\ map (fun name => isTestFileByName name "javascriptreact")
         ["a.test.jsx"; "a.spec.js"; "a.test.ts"]
     = [Returned true; Returned true; Returned false].
Proof. repeat split. Qed.

(** * isInDirectory as a prefix test on pieces *)

Lemma everyPiece_piecesPrefix (ci : bool) (contained pieces : list str) (index : nat) :
  everyPiece ci contained pieces index = piecesPrefix ci pieces (skipn index contained).
Proof.
  revert index. induction pieces as [|value rest IH]; intros index; [reflexivity|].
  cbn [everyPiece]. destruct (nth_error contained index) as [other|] eqn:E.
  - assert (Hlt : index < length contained) by (apply nth_error_Some; congruence).
    rewrite (skipn_nth_cons _ contained index other Hlt).
    rewrite (nth_error_nth _ _ other E). cbn [piecesPrefix]. unfold samePiece.
    now rewrite IH.
  - apply nth_error_None in E. rewrite skipn_all2 by exact E. reflexivity.
Qed.

Lemma isInDirectory_pieces (ns : str -> str) (win32 : bool) (d p : str) :
  d <> "" -> p <> "" ->
  isInDirectory ns win32 d p
  = (length (split "/" (ns d)) <=? length (split "/" (ns p)))
    && piecesPrefix win32 (popEmptyPieces (split "/" (ns d))) (split "/" (ns p)).
Proof.
  intros Hd Hp. unfold isInDirectory.
  apply eqb_neq in Hd, Hp. rewrite Hd, Hp. cbn [orb].
  rewrite everyPiece_piecesPrefix. cbn [skipn].
  rewrite Nat.ltb_antisym.
  now destruct (length (split "/" (ns d)) <=? length (split "/" (ns p))).
Qed.

Lemma toLowerCase_empty (s : str) : toLowerCase s = "" -> s = "".
Proof. destruct s; [reflexivity | discriminate]. Qed.

Lemma samePiece_refl (ci : bool) (a : str) : samePiece ci a a = true.
Proof. unfold samePiece. destruct ci; apply eqb_refl. Qed.

Lemma samePiece_trans (ci : bool) (a b c : str) :
  samePiece ci a b = true -> samePiece ci b c = true -> samePiece ci a c = true.
Proof.
  unfold samePiece. destruct ci; rewrite !eqb_eq; congruence.
Qed.

Lemma samePiece_empty (ci : bool) (a : str) : samePiece ci a "" = true -> a = "".
Proof.
  unfold samePiece. destruct ci; rewrite eqb_eq; [apply toLowerCase_empty | trivial].
Qed.

Lemma piecesPrefix_app (ci : bool) (l rest : list str) :
  piecesPrefix ci l (l ++ rest) = true.
Proof.
  induction l as [|x l IH]; [reflexivity|].
  cbn [app piecesPrefix]. now rewrite samePiece_refl, IH.
Qed.

Lemma piecesPrefix_trans (ci : bool) (l1 l2 l3 : list str) :
  piecesPrefix ci l1 l2 = true -> piecesPrefix ci l2 l3 = true ->
  piecesPrefix ci l1 l3 = true.
Proof.
  revert l2 l3. induction l1 as [|x l1 IH]; intros [|y l2] [|z l3] H1 H2;
    cbn [piecesPrefix] in *; try reflexivity; try discriminate.
  apply andb_true_iff in H1 as [Hxy H1]. apply andb_true_iff in H2 as [Hyz H2].
  apply andb_true_iff. split; [exact (samePiece_trans _ _ _ _ Hxy Hyz) | exact (IH _ _ H1 H2)].
Qed.

Lemma piecesPrefix_app_r (ci : bool) (l1 l2 rest : list str) :
  piecesPrefix ci l1 l2 = true -> piecesPrefix ci l1 (l2 ++ rest) = true.
Proof.
  revert l2. induction l1 as [|x l1 IH]; intros [|y l2] H;
    cbn [piecesPrefix app] in *; try reflexivity; try discriminate.
  apply andb_true_iff in H as [Hxy H]. now rewrite Hxy, IH.
Qed.

Lemma dropWhile_split (A : Type) (f : A -> bool) (l : list A) :
  exists skipped, l = skipped ++ Path.dropWhile f l /\ forallb f skipped = true.
Proof.
  induction l as [|x l [skipped [E H]]]; cbn [Path.dropWhile].
  - now exists [].
  - destruct (f x) eqn:Fx.
    + exists (x :: skipped). cbn. now rewrite Fx, H, <- E.
    + now exists [].
Qed.

Lemma dropWhile_head (A : Type) (f : A -> bool) (l : list A) (x : A) (rest : list A) :
  Path.dropWhile f l = x :: rest -> f x = false.
Proof.
  induction l as [|y l IH]; cbn [Path.dropWhile]; [discriminate|].
  destruct (f y) eqn:Fy; [exact IH|]. intros H. now injection H as -> _.
Qed.

(** The popped pieces are the pieces without the empty ones at the end. *)
Lemma popEmptyPieces_split (pieces : list str) :
  exists empties,
    pieces = popEmptyPieces pieces ++ empties
    /\ forallb Path.isEmpty empties = true.
Proof.
  unfold popEmptyPieces.
  destruct (dropWhile_split _ Path.isEmpty (rev pieces)) as [skipped [E H]].
  exists (rev skipped). split.
  - rewrite <- rev_app_distr, <- E. now rewrite rev_involutive.
  - rewrite forallb_forall in *. intros x Hx. apply H. now apply in_rev.
Qed.

(** The popped pieces do not end in an empty piece. *)
Lemma popEmptyPieces_last (pieces before : list str) (e : str) :
  popEmptyPieces pieces = before ++ [e] -> e <> "".
Proof.
  unfold popEmptyPieces. intros H.
  apply (f_equal (@rev str)) in H. rewrite rev_involutive, rev_app_distr in H.
  cbn in H. apply dropWhile_head in H. unfold Path.isEmpty in H.
  now apply eqb_neq in H.
Qed.

Lemma piecesPrefix_of_empties (ci : bool) (l empties : list str) :
  forallb Path.isEmpty empties = true ->
  piecesPrefix ci l empties = true -> forallb Path.isEmpty l = true.
Proof.
  revert empties. induction l as [|x l IH]; intros [|e empties] He H;
    cbn [piecesPrefix forallb] in *; try reflexivity; try discriminate.
  apply andb_true_iff in He as [He0 He]. apply andb_true_iff in H as [Hx H].
  unfold Path.isEmpty in He0. apply eqb_eq in He0. subst e.
  apply samePiece_empty in Hx. subst x. cbn. exact (IH _ He H).
Qed.

(** Pieces that do not end in an empty piece and are first pieces of
    [l2 ++ empties] are first pieces of [l2]. *)
Lemma piecesPrefix_without_empties (ci : bool) (l1 l2 empties : list str) :
  (forall before e, l1 = before ++ [e] -> e <> "") ->
  forallb Path.isEmpty empties = true ->
  piecesPrefix ci l1 (l2 ++ empties) = true ->
  piecesPrefix ci l1 l2 = true.
Proof.
  revert l1. induction l2 as [|y l2 IH]; intros l1 Hlast He H.
  - cbn [app] in H. pose proof (piecesPrefix_of_empties ci l1 empties He H) as Hall.
    destruct l1 as [|x l1] using rev_ind; [reflexivity|].
    rewrite forallb_app in Hall. apply andb_true_iff in Hall as [_ Hx].
    cbn in Hx. rewrite andb_true_r in Hx. unfold Path.isEmpty in Hx.
    apply eqb_eq in Hx. now destruct (Hlast l1 x eq_refl).
  - destruct l1 as [|x l1]; [reflexivity|].
    cbn [app piecesPrefix] in *. apply andb_true_iff in H as [Hxy H].
    rewrite Hxy. cbn [andb]. apply IH; [|exact He|exact H].
    intros before e E. apply (Hlast (x :: before) e). now rewrite E.
Qed.

(** X1: every path is in itself, whatever separators it ends in. *)
Theorem isInDirectory_refl (ns : str -> str) (win32 : bool) (d : str) :
  isInDirectory ns win32 d d = true.
Proof.
  destruct (JsString.eqb d "") eqn:Hd.
  - unfold isInDirectory. now rewrite Hd.
  - apply eqb_neq in Hd. rewrite (isInDirectory_pieces ns win32 d d Hd Hd).
    rewrite Nat.leb_refl. cbn [andb].
    destruct (popEmptyPieces_split (split "/" (ns d))) as [empties [E _]].
    rewrite E at 2. apply piecesPrefix_app.
Qed.

(** X2: containment is transitive through a non-empty path. *)
Theorem isInDirectory_trans (ns : str -> str) (win32 : bool) (a b c : str) :
  b <> "" ->
  isInDirectory ns win32 a b = true ->
  isInDirectory ns win32 b c = true ->
  isInDirectory ns win32 a c = true.
Proof.
  intros Hb Hab Hbc.
  destruct (JsString.eqb a "") eqn:Ha; [unfold isInDirectory; now rewrite Ha|].
  destruct (JsString.eqb c "") eqn:Hc;
    [unfold isInDirectory; rewrite Hc; now rewrite orb_true_r|].
  apply eqb_neq in Ha, Hc.
  rewrite isInDirectory_pieces in * by assumption.
  apply andb_true_iff in Hab as [Lab Pab]. apply andb_true_iff in Hbc as [Lbc Pbc].
  apply Nat.leb_le in Lab, Lbc.
  apply andb_true_iff. split; [apply Nat.leb_le; lia|].
  destruct (popEmptyPieces_split (split "/" (ns b))) as [empties [E He]].
  apply (piecesPrefix_trans win32 _ (popEmptyPieces (split "/" (ns b)))); [|exact Pbc].
  apply (piecesPrefix_without_empties win32 _ _ empties);
    [apply popEmptyPieces_last | exact He | now rewrite <- E].
Qed.

Lemma isInDirectory_trans_witness :
  isInDirectory PathUtils.normalizeSeparator false "a/" "a/b/c.ts" = true.
Proof.
  apply (isInDirectory_trans PathUtils.normalizeSeparator false "a/" "a/b" "a/b/c.ts");
    [discriminate | reflexivity | reflexivity].
Defined.

Lemma split_app_separator (sep : ascii) (s t : str) :
  split sep (s ++ sep :: t) = split sep s ++ split sep t.
Proof.
  induction s as [|c s IH]; cbn [app split].
  - now rewrite Ascii.eqb_refl.
  - rewrite IH. destruct (Ascii.eqb c sep); [reflexivity|].
    pose proof (split_nonempty sep s) as Hne.
    destruct (split sep s); [contradiction | reflexivity].
Qed.

(** X3: A path made of [d], a separator and anything more is in [d], when
    normalizing the separators keeps that shape. *)
Theorem isInDirectory_child (ns : str -> str) (win32 : bool) (d x y : str) :
  ns (d ++ "/" ++ x) = ns d ++ "/" ++ y ->
  isInDirectory ns win32 d (d ++ "/" ++ x) = true.
Proof.
  intros Hns.
  destruct (JsString.eqb d "") eqn:Hd; [unfold isInDirectory; now rewrite Hd|].
  apply eqb_neq in Hd.
  rewrite isInDirectory_pieces; [|exact Hd|destruct d; discriminate].
  rewrite Hns. change (ns d ++ "/" ++ y) with (ns d ++ "/"%char :: y).
  rewrite split_app_separator, length_app.
  apply andb_true_iff. split; [apply Nat.leb_le; lia|].
  apply piecesPrefix_app_r.
  destruct (popEmptyPieces_split (split "/" (ns d))) as [empties [E _]].
  rewrite E at 2. apply piecesPrefix_app.
Qed.

Lemma isInDirectory_child_witness :
  isInDirectory PathUtils.normalizeSeparator true "C:\Work/" ("C:\Work/" ++ "/" ++ "src\a.ts")
  = true.
Proof.
  apply (isInDirectory_child PathUtils.normalizeSeparator true "C:\Work/" "src\a.ts"
           "src/a.ts").
  reflexivity.
Defined.

(** * getFileDistance as a distance *)

Lemma commonPrefixLen_full (a b : list str) :
  commonPrefixLen a b = length a -> length a = length b -> a = b.
Proof.
  intros Hc Hl. destruct (commonPrefixLen_longest a b) as [Hfirst _].
  rewrite Hc in Hfirst. rewrite firstn_all in Hfirst.
  rewrite Hl, firstn_all in Hfirst. exact Hfirst.
Qed.

Lemma commonPrefixLen_app (a extra : list str) :
  commonPrefixLen a (a ++ extra) = length a.
Proof.
  induction a as [|x a IH]; [now destruct extra|].
  cbn [app commonPrefixLen length]. now rewrite eqb_refl, IH.
Qed.

(** Two sequences share with each other at least what each shares with a
    third. *)
Lemma commonPrefixLen_min (a b c : list str) :
  Nat.min (commonPrefixLen a b) (commonPrefixLen b c) <= commonPrefixLen a c.
Proof.
  revert b c. induction a as [|x a IH]; intros [|y b] [|z c];
    cbn [commonPrefixLen]; try lia.
  destruct (JsString.eqb x y) eqn:Exy; destruct (JsString.eqb y z) eqn:Eyz;
    try lia.
  apply eqb_eq in Exy, Eyz. subst y z. rewrite eqb_refl.
  specialize (IH b c). lia.
Qed.

(** X4: The distance is 0 exactly for files with the same directory pieces. *)
Theorem getFileDistance_zero (normalize : str -> str) (x y : str) :
  getFileDistance normalize x y = 0
  <-> directoryPieces normalize x = directoryPieces normalize y.
Proof.
  rewrite getFileDistance_eq.
  set (a := directoryPieces normalize x). set (b := directoryPieces normalize y).
  destruct (commonPrefixLen_bound a b) as [Ha Hb]. split.
  - intros H. apply commonPrefixLen_full; lia.
  - intros E. rewrite E, commonPrefixLen_same. lia.
Qed.

Lemma getFileDistance_zero_witness :
  getFileDistance PathUtils.normalize "A\B\C.java" "A/B/D.java" = 0.
Proof.
  apply (getFileDistance_zero PathUtils.normalize "A\B\C.java" "A/B/D.java").
  reflexivity.
Defined.

(** X5: The distance obeys the triangle inequality. *)
Theorem getFileDistance_triangle (normalize : str -> str) (x y z : str) :
  getFileDistance normalize x z
  <= getFileDistance normalize x y + getFileDistance normalize y z.
Proof.
  rewrite !getFileDistance_eq.
  set (a := directoryPieces normalize x). set (b := directoryPieces normalize y).
  set (c := directoryPieces normalize z).
  pose proof (commonPrefixLen_bound a b). pose proof (commonPrefixLen_bound b c).
  pose proof (commonPrefixLen_bound a c). pose proof (commonPrefixLen_min a b c).
  lia.
Qed.

(** X6: From a file to a file further down its directory, the distance is the
    number of directories in between. *)
Theorem getFileDistance_descendant (normalize : str -> str) (x y : str)
    (extra : list str) :
  directoryPieces normalize y = directoryPieces normalize x ++ extra ->
  getFileDistance normalize x y = length extra.
Proof.
  intros E. rewrite getFileDistance_eq, E, commonPrefixLen_app, length_app. lia.
Qed.

Lemma getFileDistance_descendant_witness :
  getFileDistance PathUtils.normalize "src/a.ts" "src/util/text/b.ts" = 2.
Proof.
  apply (getFileDistance_descendant PathUtils.normalize "src/a.ts" "src/util/text/b.ts"
           ["util"; "text"]).
  reflexivity.
Defined.

(** * getPrefixSuffixOverlap, further *)

Lemma overlap_parts (a b : str) :
  exists before after,
    a = before ++ getPrefixSuffixOverlap a b
    /\ b = getPrefixSuffixOverlap a b ++ after.
Proof.
  unfold getPrefixSuffixOverlap. rewrite slice_upto.
  set (n := Nat.min (length a) (length b)).
  destruct (overlapLoop_spec a b n) as [Hle [Hov _]].
  set (i := overlapLoop a b n) in *.
  exists (firstn (length a - i) a), (skipn i b). split.
  - destruct Hov as [H0 | H].
    + rewrite H0. cbn [firstn]. rewrite Nat.sub_0_r, firstn_all. now rewrite app_nil_r.
    + rewrite H. now rewrite firstn_skipn.
  - now rewrite firstn_skipn.
Qed.

(** X7: Joining [a] with what [b] has after the overlap gives a string that
    starts with [a] and ends with [b]. *)
Theorem getPrefixSuffixOverlap_merge (a b : str) :
  let merged := a ++ skipn (length (getPrefixSuffixOverlap a b)) b in
  PrefixOf a merged /\ SuffixOf b merged
  /\ length merged + length (getPrefixSuffixOverlap a b) = length a + length b.
Proof.
  cbn zeta. destruct (overlap_parts a b) as [before [after [Ea Eb]]].
  remember (getPrefixSuffixOverlap a b) as r eqn:Hr. clear Hr. subst a b.
  rewrite skipn_app, skipn_all, Nat.sub_diag. cbn [skipn app].
  split; [now exists after|]. split.
  - exists before. now rewrite <- app_assoc.
  - rewrite !length_app. lia.
Qed.

(** X8: When the second string starts with the whole first one, or the first
    ends with the whole second one, that whole string is the overlap. *)
Theorem getPrefixSuffixOverlap_whole (a x : str) :
  getPrefixSuffixOverlap a (a ++ x) = a /\ getPrefixSuffixOverlap (x ++ a) a = a.
Proof.
  assert (H : forall u v : str,
             PrefixOf u v \/ SuffixOf v u ->
             firstn (Nat.min (length u) (length v)) v
             = skipn (length u - Nat.min (length u) (length v)) u ->
             getPrefixSuffixOverlap u v = firstn (Nat.min (length u) (length v)) v).
  { intros u v _ E. unfold getPrefixSuffixOverlap. rewrite slice_upto.
    destruct (Nat.min (length u) (length v)) as [|n] eqn:En; [reflexivity|].
    cbn [overlapLoop]. rewrite slice_upto, slice_last by lia.
    rewrite E, eqb_refl. exact E. }
  split.
  - rewrite H.
    + rewrite length_app, Nat.min_l by lia.
      now rewrite firstn_app, firstn_all, Nat.sub_diag, firstn_O, app_nil_r.
    + left. now exists x.
    + rewrite length_app, Nat.min_l by lia.
      rewrite Nat.sub_diag. cbn [skipn].
      now rewrite firstn_app, firstn_all, Nat.sub_diag, firstn_O, app_nil_r.
  - rewrite H.
    + rewrite length_app, Nat.min_r by lia. apply firstn_all.
    + right. now exists x.
    + rewrite length_app, Nat.min_r by lia. rewrite firstn_all.
      replace (length x + length a - length a) with (length x) by lia.
      now rewrite skipn_app, skipn_all, Nat.sub_diag.
Qed.

(** * countSubstringMatches, further *)

Lemma filter_length_le (A : Type) (f : A -> bool) (l : list A) :
  length (filter f l) <= length l.
Proof.
  induction l as [|x l IH]; [apply Nat.le_refl|].
  cbn [filter]. destruct (f x); cbn [length]; lia.
Qed.

(** X9: The count is at most the number of pairs. *)
Theorem countSubstringMatches_bound (needles haystacks : list str) :
  countSubstringMatches needles haystacks <= length needles * length haystacks.
Proof.
  unfold countSubstringMatches. rewrite outer_loop_count, Nat.add_0_l.
  rewrite <- length_prod. apply filter_length_le.
Qed.

Lemma matching_pairs_app_r (n : str) (hs1 hs2 : list str) :
  length (filter matchingPair (map (fun h => (n, h)) (hs1 ++ hs2)))
  = length (filter matchingPair (map (fun h => (n, h)) hs1))
    + length (filter matchingPair (map (fun h => (n, h)) hs2)).
Proof. now rewrite map_app, filter_app, length_app. Qed.

(** X10: The count adds up over both lists: splitting the needles or the
    haystacks in two splits the count. *)
Theorem countSubstringMatches_additive (ns1 ns2 hs1 hs2 : list str) :
  countSubstringMatches (ns1 ++ ns2) (hs1 ++ hs2)
  = countSubstringMatches ns1 hs1 + countSubstringMatches ns1 hs2
    + countSubstringMatches ns2 hs1 + countSubstringMatches ns2 hs2.
Proof.
  assert (Hr : forall ns, countSubstringMatches ns (hs1 ++ hs2)
                          = countSubstringMatches ns hs1 + countSubstringMatches ns hs2).
  { intros ns. unfold countSubstringMatches. rewrite !outer_loop_count, !Nat.add_0_l.
    induction ns as [|n ns IH]; [reflexivity|].
    cbn [list_prod]. rewrite !filter_app, !length_app, IH, matching_pairs_app_r. lia. }
  rewrite countSubstringMatches_app, !Hr. lia.
Qed.

Lemma matching_pairs_lower (n n' : str) (hs hs' : list str) :
  toLowerCase n = toLowerCase n' ->
  map toLowerCase hs = map toLowerCase hs' ->
  length (filter matchingPair (map (fun h => (n, h)) hs))
  = length (filter matchingPair (map (fun h => (n', h)) hs')).
Proof.
  intros Hn. revert hs'. induction hs as [|h hs IH]; intros [|h' hs'] Hh;
    try discriminate; [reflexivity|].
  cbn [map] in Hh. injection Hh as Hh0 Hh.
  cbn [map filter].
  change (matchingPair (n, h)) with (includes (toLowerCase h) (toLowerCase n)).
  change (matchingPair (n', h')) with (includes (toLowerCase h') (toLowerCase n')).
  rewrite Hn, Hh0.
  destruct (includes (toLowerCase h') (toLowerCase n')); cbn [length];
    now rewrite (IH hs' Hh).
Qed.

(** X11: The count only depends on the lower-cased strings: lists that differ
    in case alone give the same count. *)
Theorem countSubstringMatches_case (ns ns' hs hs' : list str) :
  map toLowerCase ns = map toLowerCase ns' ->
  map toLowerCase hs = map toLowerCase hs' ->
  countSubstringMatches ns hs = countSubstringMatches ns' hs'.
Proof.
  intros Hn Hh. unfold countSubstringMatches. rewrite !outer_loop_count, !Nat.add_0_l.
  revert ns' Hn. induction ns as [|n ns IH]; intros [|n' ns'] Hn;
    try discriminate; [reflexivity|].
  cbn [map] in Hn. injection Hn as Hn0 Hn.
  cbn [list_prod]. rewrite !filter_app, !length_app.
  now rewrite (IH ns' Hn), (matching_pairs_lower n n' hs hs' Hn0 Hh).
Qed.

Lemma countSubstringMatches_case_witness :
  countSubstringMatches ["Foo"; "BAR"] ["fooBar.java"]
  = countSubstringMatches ["foo"; "bar"] ["FOOBAR.JAVA"].
Proof.
  apply (countSubstringMatches_case ["Foo"; "BAR"] ["foo"; "bar"]
           ["fooBar.java"] ["FOOBAR.JAVA"]); reflexivity.
Defined.

(** * isTestFile: when it throws *)

Lemma getProperty_inherited (language name : str) :
  getProperty language = Inherited name ->
  hasKey language objectPrototypeMembers = true.
Proof.
  unfold getProperty. destruct (ownProperty language utgLanguageConfigs); [discriminate|].
  now destruct (hasKey language objectPrototypeMembers).
Qed.

(** X12: [isTestFile] throws exactly for the language identifiers that name a
    member of [Object.prototype]; for every other identifier it returns a
    boolean, which is true whenever the path heuristic holds. *)
Theorem isTestFile_throws_iff (normalize : str -> str) (filePath : str)
    (languageConfig : languageConfigArg) :
  ((exists message, isTestFile normalize filePath languageConfig = Thrown message)
   <-> hasKey (languageId languageConfig) objectPrototypeMembers = true)
  /\ (hasKey (languageId languageConfig) objectPrototypeMembers = false ->
      exists b, isTestFile normalize filePath languageConfig = Returned b
                /\ (pathContainsTest normalize filePath = true -> b = true)).
Proof.
  assert (Hret : forall nameMatches,
             isTestFileByName (normalize filePath) (languageId languageConfig)
             = Returned nameMatches ->
             isTestFile normalize filePath languageConfig
             = Returned (pathContainsTest normalize filePath || nameMatches)).
  { intros nameMatches H. unfold isTestFile, pathContainsTest. rewrite H.
    now destruct (_ || nameMatches). }
  destruct (isTestFileByName (normalize filePath) (languageId languageConfig))
    as [nameMatches|message] eqn:E.
  - assert (Hno : hasKey (languageId languageConfig) objectPrototypeMembers = false).
    { destruct (hasKey (languageId languageConfig) objectPrototypeMembers) eqn:Hk;
        [|reflexivity].
      rewrite (isTestFileByName_inherited_throws _ _ Hk) in E. discriminate. }
    rewrite (Hret nameMatches eq_refl). split.
    + split; [intros [message H]; discriminate | rewrite Hno; discriminate].
    + intros _. eexists. split; [reflexivity|]. now intros ->.
  - assert (Hyes : hasKey (languageId languageConfig) objectPrototypeMembers = true).
    { unfold isTestFileByName in E.
      destruct (getProperty (languageId languageConfig)) eqn:G; try discriminate.
      exact (getProperty_inherited _ _ G). }
    assert (Hthrow : isTestFile normalize filePath languageConfig = Thrown message).
    { unfold isTestFile. now rewrite E. }
    rewrite Hthrow, Hyes. split.
    + split; [reflexivity | intros _; now exists message].
    + discriminate.
Qed.

Lemma isTestFile_throws_iff_witness :
  exists b, isTestFile PathUtils.normalize "pkg\test\widget.go"
              {| languageId := "go"; fileContent := None |} = Returned b
            /\ (pathContainsTest PathUtils.normalize "pkg\test\widget.go" = true -> b = true).
Proof.
  apply (isTestFile_throws_iff PathUtils.normalize "pkg\test\widget.go"
           {| languageId := "go"; fileContent := None |}).
  reflexivity.
Defined.

(** * getFileExt and checkLeftContextKeywordsForJson *)

(** X18: Where [getFileExt] knows an extension, it is the one the language
    table has for that language. *)
Theorem getFileExt_table (languageId ext : str) :
  getFileExt languageId = Some ext ->
  exists config, getProperty languageId = Config config /\ extension config = ext.
Proof.
  unfold getFileExt.
  destruct (JsString.eqb languageId "java") eqn:Ej.
  - apply eqb_eq in Ej. subst. intros H. injection H as <-.
    eexists. split; reflexivity.
  - destruct (JsString.eqb languageId "python") eqn:Ep; [|discriminate].
    apply eqb_eq in Ep. subst. intros H. injection H as <-.
    eexists. split; reflexivity.
Qed.

Lemma getFileExt_table_witness :
  exists config, getProperty "python" = Config config /\ extension config = ".py".
Proof. apply (getFileExt_table "python" ".py"). reflexivity. Defined.

Lemma substring_app (p s more : str) : Substring p s -> Substring p (s ++ more).
Proof.
  intros [before [after ->]]. exists before, (after ++ more).
  now rewrite <- !app_assoc.
Qed.

Lemma existsb_includes_app (f : str -> str) (keywords : list str) (s more : str) :
  (forall a b, f (a ++ b) = f a ++ f b) ->
  existsb (fun substring => includes (f s) substring) keywords = true ->
  existsb (fun substring => includes (f (s ++ more)) substring) keywords = true.
Proof.
  intros Hf H. apply existsb_exists in H as [k [Hin Hk]].
  apply existsb_exists. exists k. split; [exact Hin|].
  apply includes_substring. rewrite Hf. apply substring_app.
  now apply includes_substring.
Qed.

(** X19: The check holds for [json] only, and it is lost for good as the left
    context grows: a context that passes has only prefixes that pass. *)
Theorem checkLeftContextKeywordsForJson_prefix
    (keyWords caseInsensitiveKeyWords configNames : list str)
    (fileName leftFileContent more language : str) :
  checkLeftContextKeywordsForJson keyWords caseInsensitiveKeyWords configNames
    fileName (leftFileContent ++ more) language = true ->
  language = "json"
  /\ checkLeftContextKeywordsForJson keyWords caseInsensitiveKeyWords configNames
       fileName leftFileContent language = true.
Proof.
  unfold checkLeftContextKeywordsForJson.
  destruct (JsString.eqb language "json") eqn:El; [|discriminate].
  apply eqb_eq in El. cbn [andb].
  destruct (existsb (fun substring => includes leftFileContent substring) keyWords) eqn:E1.
  { rewrite (existsb_includes_app (fun s => s) keyWords leftFileContent more
               (fun a b => eq_refl) E1). discriminate. }
  destruct (existsb (fun substring => includes (toLowerCase leftFileContent) substring)
              caseInsensitiveKeyWords) eqn:E2.
  { rewrite (existsb_includes_app toLowerCase caseInsensitiveKeyWords leftFileContent more
               (fun a b => map_app lowerUnit a b) E2).
    rewrite andb_false_r. discriminate. }
  destruct (existsb (fun substring => includes (leftFileContent ++ more) substring) keyWords);
    [discriminate|].
  destruct (existsb (fun substring => includes (toLowerCase (leftFileContent ++ more)) substring)
              caseInsensitiveKeyWords); [discriminate|].
  cbn [negb andb]. intros H. split; [exact El | exact H].
Qed.

Lemma checkLeftContextKeywordsForJson_prefix_witness :
  checkLeftContextKeywordsForJson ["Resources"] ["cfn"] ["package.json"]
    "data.json" "{ items: [" "json" = true.
Proof.
  apply (checkLeftContextKeywordsForJson_prefix ["Resources"] ["cfn"] ["package.json"]
           "data.json" "{ items: [" " 1, 2 ] }" "json").
  reflexivity.
Defined.

(** * getNonexistentFilename, further *)

Section ProbingMore.
Variable exists_ : str -> bool.
Variable join : str -> str -> str.
Variable randomByte : nat -> byte.
Variables dir name suffix : str.
Variable max : nat.

(** The loop returns a candidate, and has then drawn the random bytes of
    the attempts up to it. *)
Lemma attempts_drawn (d0 fuel i : nat) (w w' : world) (filename : str) :
  drawn w = drawnBefore max d0 i ->
  attempts exists_ join randomByte fuel dir name suffix max i w = Some (filename, w') ->
  exists k,
    i <= k
    /\ filename = nthCandidate randomByte name suffix max d0 k
    /\ drawn w' = drawnBefore max d0 (S k).
Proof.
  revert i w. induction fuel as [|fuel IH]; intros i w Hw Hrun; [discriminate|].
  cbn [attempts] in Hrun.
  destruct (candidate_nth randomByte name suffix max d0 i w Hw) as [w1 [Hc [Hd1 Hp1]]].
  rewrite Hc in Hrun. unfold probe in Hrun.
  destruct (negb (exists_ (join dir (nthCandidate randomByte name suffix max d0 i)))
            || (max + 99 <=? i)).
  - injection Hrun as <- <-. exists i. split; [lia | split; [reflexivity | exact Hd1]].
  - apply IH in Hrun as [k [Hk [Hf Hd]]]; [|exact Hd1].
    exists k. split; [lia | split; [exact Hf | exact Hd]].
Qed.

End ProbingMore.

Lemma nthCandidate_shape (randomByte : nat -> byte) (name suffix : str) (max d0 k : nat) :
  exists middle, nthCandidate randomByte name suffix max d0 k = name ++ middle ++ suffix.
Proof.
  unfold nthCandidate. destruct (k =? 0); [now exists ""|].
  destruct (k <? max).
  - now exists ("-" ++ ofNat k).
  - now exists ("-" ++ toHex (map randomByte (List.seq (drawnBefore max d0 k) 4))).
Qed.

(** X20: Every name [getNonexistentFilename] returns starts with [name], ends
    with [suffix], and is not empty. *)
Theorem getNonexistentFilename_shape
    (existsDir exists_ : str -> bool) (join : str -> str -> str)
    (randomByte : nat -> byte) (dir name suffix : str) (max : option nat)
    (w w' : world) (fuel : nat) (filename : str) :
  getNonexistentFilename existsDir exists_ join randomByte fuel dir name suffix max w
  = Some (Returned filename, w') ->
  (exists middle, filename = name ++ middle ++ suffix) /\ filename <> "".
Proof.
  unfold getNonexistentFilename.
  destruct (JsString.eqb name "") eqn:Hname; [discriminate|].
  destruct (negb (existsDir dir)); [discriminate|].
  destruct (attempts _ _ _ _ _ _ _ _ _ _) as [[f w1]|] eqn:Hrun; [|discriminate].
  intros H. injection H as <- <-.
  apply (attempts_drawn _ _ _ _ _ _ _ (drawn w)) in Hrun as [k [_ [Hf _]]];
    [|unfold drawnBefore; lia].
  destruct (nthCandidate_shape randomByte name suffix
              (match max with Some m => m | None => 99 end) (drawn w) k)
    as [middle Hm].
  split; [exists middle; congruence|].
  rewrite Hf, Hm. apply eqb_neq in Hname. destruct name; [contradiction | discriminate].
Qed.

Lemma getNonexistentFilename_shape_witness :
  (exists middle, "foo-2.txt" = "foo" ++ middle ++ ".txt") /\ "foo-2.txt" <> "".
Proof.
  apply (getNonexistentFilename_shape (fun _ => true)
           (fun p => JsString.eqb p "d/foo.txt" || JsString.eqb p "d/foo-1.txt")
           (fun d f => d ++ "/" ++ f) (fun _ => x00) "d" "foo" ".txt" (Some 3)
           initial
           {| drawn := 0; probes := ["d/foo.txt"; "d/foo-1.txt"; "d/foo-2.txt"] |}
           200 "foo-2.txt").
  reflexivity.
Defined.

(** X21: Random bytes are drawn only for the attempts that get a random token,
    four for each: a call that returns the plain name or a numbered one
    draws none. *)
Theorem getNonexistentFilename_random_bytes
    (existsDir exists_ : str -> bool) (join : str -> str -> str)
    (randomByte : nat -> byte) (dir name suffix : str) (max : option nat)
    (w w' : world) (fuel : nat) (filename : str) :
  let m := match max with Some m => m | None => 99 end in
  getNonexistentFilename existsDir exists_ join randomByte fuel dir name suffix max w
  = Some (Returned filename, w') ->
  exists k,
    filename = nthCandidate randomByte name suffix m (drawn w) k
    /\ drawn w' = drawn w + 4 * (S k - Nat.max m 1)
    /\ (k = 0 \/ k < m -> drawn w' = drawn w).
Proof.
  cbn zeta. unfold getNonexistentFilename.
  destruct (JsString.eqb name ""); [discriminate|].
  destruct (negb (existsDir dir)); [discriminate|].
  destruct (attempts _ _ _ _ _ _ _ _ _ _) as [[f w1]|] eqn:Hrun; [|discriminate].
  intros H. injection H as <- <-.
  apply (attempts_drawn _ _ _ _ _ _ _ (drawn w)) in Hrun as [k [_ [Hf Hd]]];
    [|unfold drawnBefore; lia].
  exists k. unfold drawnBefore in Hd.
  split; [exact Hf | split; [exact Hd | intros Hk; lia]].
Qed.

Lemma getNonexistentFilename_random_bytes_witness :
  exists k,
    "foo-2.txt" = nthCandidate (fun _ => x00) "foo" ".txt" 3 0 k
    /\ 0 = 0 + 4 * (S k - Nat.max 3 1)
    /\ (k = 0 \/ k < 3 -> 0 = 0).
Proof.
  apply (getNonexistentFilename_random_bytes (fun _ => true)
           (fun p => JsString.eqb p "d/foo.txt" || JsString.eqb p "d/foo-1.txt")
           (fun d f => d ++ "/" ++ f) (fun _ => x00) "d" "foo" ".txt" (Some 3)
           initial
           {| drawn := 0; probes := ["d/foo.txt"; "d/foo-1.txt"; "d/foo-2.txt"] |}
           200 "foo-2.txt").
  reflexivity.
Defined.

(** * getDirSize *)






(** * The temporary folder *)



(** * The download path *)

Lemma stateGet_update_same (key : str) (value : stored) (state : list (str * stored)) :
  stateGet key (stateUpdate key value state) = Some value.
Proof. unfold stateUpdate. cbn [stateGet]. now rewrite eqb_refl. Qed.

Lemma stateGet_update_other (key other : str) (value : stored)
    (state : list (str * stored)) :
  other <> key ->
  stateGet other (stateUpdate key value state) = stateGet other state.
Proof.
  intros Hne. unfold stateUpdate. cbn [stateGet].
  assert (Hk : JsString.eqb key other = false) by (apply eqb_neq; congruence).
  rewrite Hk. induction state as [|[k v] state IH]; [reflexivity|].
  cbn [filter fst stateGet].
  destruct (JsString.eqb k key) eqn:E; cbn [negb].
  - apply eqb_eq in E. subst k. now rewrite Hk.
  - cbn [stateGet]. now rewrite IH.
Qed.

(** X24: What is set is what is got: after a successful
    [setDefaultDownloadPath], [getDefaultDownloadPath] returns the path
    when it is a directory and its [dirname] when not, unless that is the
    empty string; no error is logged and no other key changes. *)
Theorem downloadPath_round_trip (existsDir : str -> bool) (join : str -> str -> str)
    (dirname : str -> str) (homedir tmpdir downloadPath : str) (st : session) :
  let value := if existsDir downloadPath then downloadPath else dirname downloadPath in
  let st' := setDefaultDownloadPath existsDir dirname false downloadPath st in
  value <> "" ->
  getDefaultDownloadPath existsDir join homedir tmpdir st' = (value, st')
  /\ errorLog st' = errorLog st
  /\ forall key, key <> "aws.downloadPath" ->
                 stateGet key (globalState st') = stateGet key (globalState st).
Proof.
  cbn zeta. intros Hvalue. unfold getDefaultDownloadPath, setDefaultDownloadPath.
  cbn [globalState errorLog]. rewrite stateGet_update_same.
  apply eqb_neq in Hvalue. rewrite Hvalue.
  split; [reflexivity | split; [reflexivity|]].
  intros key Hkey. now apply stateGet_update_other.
Qed.

Lemma downloadPath_round_trip_witness :
  fst (getDefaultDownloadPath (fun p => JsString.eqb p "/home/u/out") (fun d f => d ++ "/" ++ f)
         "/home/u" "/tmp"
         (setDefaultDownloadPath (fun p => JsString.eqb p "/home/u/out") (fun _ => "/home/u/out")
            false "/home/u/out/report.csv"
            {| globalState := [("aws.downloadPath", StoredOther true)]; errorLog := [] |}))
  = "/home/u/out".
Proof.
  rewrite (proj1 (downloadPath_round_trip (fun p => JsString.eqb p "/home/u/out")
                    (fun d f => d ++ "/" ++ f) (fun _ => "/home/u/out")
                    "/home/u" "/tmp" "/home/u/out/report.csv"
                    {| globalState := [("aws.downloadPath", StoredOther true)];
                       errorLog := [] |} ltac:(discriminate))).
  reflexivity.
Defined.


(** * The matcher and what a pattern matches *)

Lemma iterate_reach (s : str) (P : nat -> nat -> Prop) :
  (forall i j, P i j -> reach s i j) ->
  forall n i j, iterate P n i j -> reach s i j.
Proof.
  intros HP. induction n as [|n IH]; intros i j H; cbn [iterate] in H.
  - subst. apply reach_refl.
  - destruct H as [l [Hl H]]. exact (reach_trans _ _ _ _ (HP _ _ Hl) (IH _ _ H)).
Qed.

Lemma unitAt_reach (s : str) (p : ascii -> bool) (i j : nat) :
  unitAt s p i j -> reach s i j.
Proof.
  intros [c [Hc [_ ->]]].
  assert (i < length s) by (apply nth_error_Some; congruence).
  unfold reach. lia.
Qed.

Lemma matches_reach (m : bool) (s : str) (r : regex) :
  forall i j, matches m s r i j -> reach s i j.
Proof.
  induction r as [ | c | | negated atoms | r1 IH1 r2 IH2 | r1 IH1 r2 IH2
                   | min max r1 IH1 | n r1 IH1 | | | r1 IH1 ];
    intros i j H; cbn [matches] in H;
    try (now apply unitAt_reach in H).
  - subst. apply reach_refl.
  - destruct H as [l [H1 H2]]. exact (reach_trans _ _ _ _ (IH1 _ _ H1) (IH2 _ _ H2)).
  - destruct H as [H|H]; [now apply IH1 | now apply IH2].
  - destruct H as [n [_ H]]. exact (iterate_reach s _ IH1 _ _ _ H).
  - now apply IH1.
  - destruct H as [_ ->]. apply reach_refl.
  - destruct H as [_ ->]. apply reach_refl.
  - destruct H as [-> _]. apply reach_refl.
Qed.

Lemma blindFrom_reach (s : str) (i j : nat) (k : continuation) :
  reach s i j -> blindFrom s i k -> blindFrom s j k.
Proof.
  intros Hij Hk l c c' Hl. apply Hk. exact (reach_trans _ _ _ _ Hij Hl).
Qed.

Lemma accepts_blind (s : str) (i j : nat) (k : continuation) (c : captures) :
  blindFrom s i k -> reach s i j -> accepts k j -> k j c <> None.
Proof. intros Hk Hj [c' Hc']. exact (Hk j c' c Hj Hc'). Qed.

Lemma orElse_success (a : option state) (b : unit -> option state) :
  orElse a b <> None <-> a <> None \/ b tt <> None.
Proof.
  destruct a as [x|]; cbn [orElse].
  - split; [intros _; left; discriminate | intros _; discriminate].
  - split; [intros H; now right | intros [H|H]; [contradiction | exact H]].
Qed.

Lemma oneUnit_success (s : str) (p : ascii -> bool) (i : nat) (caps : captures)
    (k : continuation) :
  blindFrom s i k ->
  (oneUnit s p i caps k <> None <-> exists j, unitAt s p i j /\ accepts k j).
Proof.
  intros Hk. unfold oneUnit, unitAt. split.
  - destruct (nth_error s i) as [c|] eqn:E; [|contradiction].
    destruct (p c) eqn:Hp; [|contradiction].
    intros H. exists (S i). split; [now exists c | now exists caps].
  - intros [j [[c [Hc [Hp ->]]] Hacc]]. rewrite Hc, Hp.
    apply (accepts_blind s i); [exact Hk | | exact Hacc].
    apply (unitAt_reach s p). now exists c.
Qed.

Lemma countAllowed_step (min : nat) (max : option nat) (n : nat) :
  max <> Some 0 ->
  (countAllowed (S min) max (S n) <-> countAllowed min (option_map pred max) n)
  /\ ~ countAllowed (S min) max 0
  /\ (countAllowed 0 max (S n) <-> countAllowed 0 (option_map pred max) n)
  /\ countAllowed 0 max 0.
Proof.
  intros Hmax. destruct max as [[|most]|]; [contradiction| |];
    cbn [countAllowed option_map pred]; repeat split; intros; lia.
Qed.

(** With [min] used up, the iterations that consume nothing can be left
    out: either nothing is consumed at all, or some first iteration
    consumes something. *)
Lemma iterate_first_progress (s : str) (P : nat -> nat -> Prop) :
  (forall i j, P i j -> reach s i j) ->
  forall n i j,
    iterate P n i j ->
    j = i \/ exists n' l, n' < n /\ i < l /\ P i l /\ iterate P n' l j.
Proof.
  intros HP. induction n as [|n IH]; intros i j H; cbn [iterate] in H.
  - now left.
  - destruct H as [l [Hl H]]. destruct (Nat.eq_dec l i) as [->|Hne].
    + destruct (IH _ _ H) as [->|[n' [l' [Hn [Hl' [HP' H']]]]]]; [now left|].
      right. exists n', l'. split; [lia | split; [exact Hl' | split; assumption]].
    + right. exists n, l. destruct (HP _ _ Hl) as [Hle _].
      split; [lia | split; [lia | split; assumption]].
Qed.

(** The quantifier succeeds exactly when some allowed number of
    iterations leads to an index the continuation accepts. *)
Lemma repeatMatcher_success (s : str)
    (m1 : nat -> captures -> continuation -> option state) (gs : list nat)
    (P : nat -> nat -> Prop) :
  (forall i j, P i j -> reach s i j) ->
  (forall i caps k, blindFrom s i k ->
                    (m1 i caps k <> None <-> exists j, P i j /\ accepts k j)) ->
  forall fuel min max i caps k,
    min + (length s - i) < fuel ->
    blindFrom s i k ->
    (repeatMatcher m1 gs k fuel min max i caps <> None
     <-> exists j n, countAllowed min max n /\ iterate P n i j /\ accepts k j).
Proof.
  intros HP Hm1. induction fuel as [|fuel IH]; intros min max i caps k Hfuel Hk; [lia|].
  cbn [repeatMatcher].
  assert (Hcase : max = Some 0 \/ max <> Some 0)
    by (destruct max as [[|most]|]; [now left | right; discriminate | right; discriminate]).
  destruct Hcase as [->|Hmax].
  { split.
    - intros H. exists i, 0. cbn. split; [lia | split; [reflexivity | now exists caps]].
    - intros [j [n [[Hn _] [Hit Hacc]]]]. assert (n = 0) by lia. subst n.
      cbn in Hit. subst j. exact (accepts_blind s i i k caps Hk (reach_refl s i) Hacc). }
  set (d := fun j caps' =>
              if (min =? 0) && (j =? i) then None
              else repeatMatcher m1 gs k fuel (pred min) (option_map pred max) j caps').
  assert (Hd : forall j, reach s i j ->
                 (min = 0 -> j <> i) ->
                 forall c, d j c <> None
                           <-> exists j' n, countAllowed (pred min) (option_map pred max) n
                                            /\ iterate P n j j' /\ accepts k j').
  { intros j [Hij Hj] Hprog c. unfold d.
    assert (Hcond : (min =? 0) && (j =? i) = false).
    { destruct (Nat.eqb_spec min 0) as [Hmin|Hmin]; [|reflexivity].
      destruct (Nat.eqb_spec j i) as [Hji|Hji]; [|reflexivity].
      now destruct (Hprog Hmin). }
    rewrite Hcond. apply IH.
    - destruct min as [|min']; [specialize (Hprog eq_refl)|]; cbn [pred]; lia.
    - apply (blindFrom_reach s i); [split; assumption | exact Hk]. }
  assert (Hdblind : blindFrom s i d).
  { intros j c c' Hj Hc.
    assert (Hprog : min = 0 -> j <> i).
    { intros Hmin Hji. unfold d in Hc.
      rewrite Hmin, Hji in Hc. cbn [Nat.eqb andb] in Hc.
      rewrite Nat.eqb_refl in Hc. now apply Hc. }
    apply (Hd j Hj Hprog c'). now apply (Hd j Hj Hprog c). }
  assert (Hbody : m1 i (clearGroups gs caps) d <> None
                  <-> exists l, P i l /\ (min = 0 -> l <> i)
                                /\ exists j' n, countAllowed (pred min) (option_map pred max) n
                                                /\ iterate P n l j' /\ accepts k j').
  { rewrite (Hm1 i (clearGroups gs caps) d Hdblind). split.
    - intros [l [Hl [c Hc]]].
      assert (Hprog : min = 0 -> l <> i).
      { intros Hmin Hli. unfold d in Hc.
        rewrite Hmin, Hli in Hc. cbn [Nat.eqb andb] in Hc.
        rewrite Nat.eqb_refl in Hc. now apply Hc. }
      exists l. split; [exact Hl | split; [exact Hprog|]].
      now apply (Hd l (HP _ _ Hl) Hprog c).
    - intros [l [Hl [Hprog H]]]. exists l. split; [exact Hl|].
      exists caps. now apply (Hd l (HP _ _ Hl) Hprog caps). }
  destruct (countAllowed_step (pred min) max 0 Hmax) as [_ [Hno0 _]].
  destruct min as [|min'].
  - assert (Hgoal : m1 i (clearGroups gs caps) d <> None \/ k i caps <> None
                    <-> exists j n, countAllowed 0 max n /\ iterate P n i j /\ accepts k j).
    { rewrite Hbody. cbn [pred]. split.
      - intros [[l [Hl [_ [j [n [Hc [Hit Hacc]]]]]]] | H].
        + exists j, (S n). split; [now apply (countAllowed_step 0 max n Hmax)|].
          split; [|exact Hacc]. cbn [iterate]. now exists l.
        + exists i, 0. split; [now apply (countAllowed_step 0 max 0 Hmax)|].
          split; [reflexivity | now exists caps].
      - intros [j [n [Hc [Hit Hacc]]]].
        destruct (iterate_first_progress s P HP n i j Hit)
          as [->|[n' [l [Hn [Hl [HPl Hit']]]]]].
        + right. exact (accepts_blind s i i k caps Hk (reach_refl s i) Hacc).
        + left. exists l. split; [exact HPl | split; [intros _; lia|]].
          exists j, n'. split; [|split; assumption].
          destruct max as [[|most]|]; cbn [countAllowed option_map pred] in *; lia. }
    destruct max as [[|most]|]; [contradiction| |];
      (etransitivity; [apply orElse_success | exact Hgoal]).
  - assert (Hgoal : m1 i (clearGroups gs caps) d <> None
                    <-> exists j n, countAllowed (S min') max n /\ iterate P n i j
                                    /\ accepts k j).
    { rewrite Hbody. cbn [pred]. split.
      - intros [l [Hl [_ [j [n [Hc [Hit Hacc]]]]]]].
        exists j, (S n). split; [now apply (countAllowed_step min' max n Hmax)|].
        split; [|exact Hacc]. cbn [iterate]. now exists l.
      - intros [j [[|n] [Hc [Hit Hacc]]]].
        + now destruct (proj1 (proj2 (countAllowed_step min' max 0 Hmax))).
        + cbn [iterate] in Hit. destruct Hit as [l [Hl Hit]].
          exists l. split; [exact Hl | split; [discriminate|]].
          exists j, n. split; [now apply (countAllowed_step min' max n Hmax)|].
          split; assumption. }
    destruct max as [[|most]|]; [contradiction| |]; exact Hgoal.
Qed.

Lemma tryFrom_success (f : nat -> option state) (n j : nat) :
  tryFrom f n j <> None <-> exists l, j <= l < j + n /\ f l <> None.
Proof.
  revert j. induction n as [|n IH]; intros j; cbn [tryFrom].
  - split; [contradiction | intros [l [Hl _]]; lia].
  - rewrite orElse_success, IH. split.
    + intros [H | [l [Hl H]]]; [exists j | exists l]; (split; [lia | exact H]).
    + intros [l [Hl H]]. destruct (Nat.eq_dec l j) as [->|Hne]; [now left|].
      right. exists l. split; [lia | exact H].
Qed.

(** The matcher succeeds exactly when the pattern matches some piece
    starting at [i] whose end the continuation accepts. *)
Lemma matchAt_success (m : bool) (s : str) (r : regex) :
  forall i caps k,
    blindFrom s i k ->
    (matchAt m s r i caps k <> None
     <-> exists j, matches m s r i j /\ accepts k j).
Proof.
  induction r as [ | c | | negated atoms | r1 IH1 r2 IH2 | r1 IH1 r2 IH2
                   | min max r1 IH1 | n r1 IH1 | | | r1 IH1 ];
    intros i caps k Hk; cbn [matchAt matches];
    try (now apply oneUnit_success).
  - split.
    + intros H. exists i. split; [reflexivity | now exists caps].
    + intros [j [-> Hacc]]. exact (accepts_blind s i i k caps Hk (reach_refl s i) Hacc).
  - assert (Hnext : forall l, reach s i l ->
                      forall c, matchAt m s r2 l c k <> None
                                <-> exists j, matches m s r2 l j /\ accepts k j).
    { intros l Hl c. apply IH2. exact (blindFrom_reach s i l k Hl Hk). }
    rewrite IH1.
    + split.
      * intros [l [Hl [c Hc]]]. apply (Hnext l (matches_reach m s r1 _ _ Hl)) in Hc.
        destruct Hc as [j [Hj Hacc]]. exists j. split; [now exists l | exact Hacc].
      * intros [j [[l [Hl Hj]] Hacc]]. exists l. split; [exact Hl|].
        exists caps. apply (Hnext l (matches_reach m s r1 _ _ Hl)). now exists j.
    + intros l c c' Hl Hc. apply (Hnext l Hl). now apply (Hnext l Hl) in Hc.
  - rewrite orElse_success, (IH1 i caps k Hk), (IH2 i caps k Hk). split.
    + intros [[j [Hj Hacc]] | [j [Hj Hacc]]]; exists j; (split; [tauto | exact Hacc]).
    + intros [j [[Hj|Hj] Hacc]]; [left | right]; now exists j.
  - rewrite (repeatMatcher_success s (matchAt m s r1) (groupsOf r1) (matches m s r1)
               (matches_reach m s r1) IH1); [|lia|exact Hk].
    split.
    + intros [j [n [Hc [Hit Hacc]]]]. exists j. split; [now exists n | exact Hacc].
    + intros [j [[n [Hc Hit]] Hacc]]. now exists j, n.
  - rewrite IH1.
    + split.
      * intros [j [Hj [c Hc]]]. exists j. split; [exact Hj|].
        exists ((n, (i, j)) :: c). exact Hc.
      * intros [j [Hj Hacc]]. exists j. split; [exact Hj|]. exists caps.
        exact (accepts_blind s i j k _ Hk (matches_reach m s r1 _ _ Hj) Hacc).
    + intros j c c' Hj Hc. exact (Hk j _ _ Hj Hc).
  - destruct (atBol m s i).
    + split.
      * intros H. exists i. split; [now split | now exists caps].
      * intros [j [[_ ->] Hacc]].
        exact (accepts_blind s i i k caps Hk (reach_refl s i) Hacc).
    + split; [contradiction | intros [j [[H _] _]]; discriminate].
  - destruct (atEol m s i).
    + split.
      * intros H. exists i. split; [now split | now exists caps].
      * intros [j [[_ ->] Hacc]].
        exact (accepts_blind s i i k caps Hk (reach_refl s i) Hacc).
    + split; [contradiction | intros [j [[H _] _]]; discriminate].
  - assert (Hlook : tryFrom (fun j => matchAt m s r1 j caps
                                        (fun e caps' => if e =? i then Some (e, caps') else None))
                            (S i) 0 <> None
                    <-> exists l, l <= i /\ matches m s r1 l i).
    { rewrite tryFrom_success. split.
      - intros [l [Hl H]]. apply IH1 in H.
        + destruct H as [e [He [c Hc]]]. exists l. split; [lia|].
          destruct (Nat.eqb_spec e i) as [->|Hne]; [exact He | now destruct Hc].
        + intros e c c' _ Hc. destruct (e =? i); [discriminate | now destruct Hc].
      - intros [l [Hl H]]. exists l. split; [lia|]. apply IH1.
        + intros e c c' _ Hc. destruct (e =? i); [discriminate | now destruct Hc].
        + exists i. split; [exact H|]. exists caps. rewrite Nat.eqb_refl. discriminate. }
    destruct (tryFrom _ _ _) as [st|].
    + split.
      * intros H. exists i. split; [|now exists caps].
        split; [reflexivity|]. apply Hlook. discriminate.
      * intros [j [[-> _] Hacc]].
        exact (accepts_blind s i i k caps Hk (reach_refl s i) Hacc).
    + split; [contradiction|].
      intros [j [[_ H] _]]. apply Hlook in H. now destruct H.
Qed.

(** A search succeeds exactly when the pattern matches at some index from
    [from] on. *)
Lemma search_success (m : bool) (s : str) (r : regex) (from : nat) :
  search m s r from <> None
  <-> exists i j, from <= i <= length s /\ matches m s r i j.
Proof.
  assert (Hat : forall i, matchAt m s r i [] (fun e caps => Some (e, caps)) <> None
                          <-> exists j, matches m s r i j).
  { intros i. rewrite matchAt_success.
    - split; [intros [j [Hj _]]; now exists j|].
      intros [j Hj]. exists j. split; [exact Hj|]. exists []. discriminate.
    - intros j c c' _ _. discriminate. }
  unfold search.
  assert (Hscan : forall n from',
             (fix scan (n j : nat) {struct n} : option (nat * state) :=
                match n with
                | 0 => None
                | S n' =>
                    match matchAt m s r j [] (fun e caps => Some (e, caps)) with
                    | Some st => Some (j, st)
                    | None => scan n' (S j)
                    end
                end) n from' <> None
             <-> exists i j, from' <= i < from' + n /\ matches m s r i j).
  { induction n as [|n IH]; intros from'.
    - split; [contradiction | intros [i [j [Hi _]]]; lia].
    - destruct (matchAt m s r from' [] (fun e caps => Some (e, caps))) as [st|] eqn:E.
      + split; [|discriminate]. intros _.
        assert (Hm : matchAt m s r from' [] (fun e caps => Some (e, caps)) <> None)
          by (rewrite E; discriminate).
        apply Hat in Hm as [j Hj]. exists from', j. split; [lia | exact Hj].
      + rewrite IH. split.
        * intros [i [j [Hi Hj]]]. exists i, j. split; [lia | exact Hj].
        * intros [i [j [Hi Hj]]]. destruct (Nat.eq_dec i from') as [->|Hne].
          -- assert (Hm : matchAt m s r from' [] (fun e caps => Some (e, caps)) <> None)
               by (apply Hat; now exists j).
             now rewrite E in Hm.
          -- exists i, j. split; [lia | exact Hj]. }
  rewrite Hscan. split; intros [i [j [Hi Hj]]]; exists i, j; (split; [lia | exact Hj]).
Qed.

(** [test] with a pattern without the [g] flag. *)
Lemma test_success (re : RegExp.t) (s : str) :
  global re = false ->
  (fst (test re s) = true
   <-> exists i j, i <= length s /\ matches (multiline re) s (pattern re) i j).
Proof.
  intros Hg. unfold test, exec. rewrite Hg.
  pose proof (search_success (multiline re) s (pattern re) 0) as H.
  destruct (search (multiline re) s (pattern re) 0) as [[i [e caps]]|]; cbn [fst].
  - split; [intros _ | reflexivity].
    destruct (proj1 H ltac:(discriminate)) as [i' [j [Hi Hj]]].
    exists i', j. split; [lia | exact Hj].
  - split; [discriminate|]. intros [i [j [Hi Hj]]].
    exfalso. apply (proj2 H); [|reflexivity]. exists i, j. split; [lia | exact Hj].
Qed.

(** * Pieces of a string *)

Lemma app_eq_length (A : Type) (a b c d : list A) :
  a ++ b = c ++ d -> length a = length c -> a = c /\ b = d.
Proof.
  revert c. induction a as [|x a IH]; intros [|y c] H Hl; try discriminate.
  - now split.
  - cbn in H, Hl. injection H as -> H. injection Hl as Hl.
    destruct (IH c H Hl) as [-> ->]. now split.
Qed.

Lemma spans_bounds (s : str) (i j : nat) (x : str) :
  spans s i j x -> i <= j /\ j <= length s.
Proof.
  intros [before [after [-> [<- ->]]]]. rewrite !length_app. lia.
Qed.

Lemma spans_nil (s : str) (i : nat) : i <= length s -> spans s i i "".
Proof.
  intros Hi. exists (firstn i s), (skipn i s). cbn [app].
  rewrite firstn_skipn, firstn_length_le by exact Hi.
  split; [reflexivity | split; [reflexivity | cbn [length]; lia]].
Qed.

Lemma spans_seq (s : str) (i l j : nat) (x y : str) :
  spans s i l x -> spans s l j y -> spans s i j (x ++ y).
Proof.
  intros [b1 [a1 [E1 [Hb1 ->]]]] [b2 [a2 [E2 [Hb2 ->]]]].
  assert (H : (b1 ++ x) ++ a1 = b2 ++ y ++ a2) by (rewrite <- app_assoc; congruence).
  apply app_eq_length in H as [<- ->]; [|rewrite length_app; lia].
  exists b1, a2. rewrite E1, length_app, <- !app_assoc.
  repeat split; [exact Hb1 | lia].
Qed.

Lemma spans_split (s : str) (i j : nat) (x y : str) :
  spans s i j (x ++ y) ->
  spans s i (i + length x) x /\ spans s (i + length x) j y.
Proof.
  intros [before [after [E [Hb ->]]]]. split.
  - exists before, (y ++ after). rewrite E, <- app_assoc. repeat split. exact Hb.
  - exists (before ++ x), after. rewrite E, !length_app, <- !app_assoc.
    repeat split; lia.
Qed.

Lemma spans_unit (s : str) (i : nat) (c : ascii) :
  nth_error s i = Some c <-> spans s i (S i) [c].
Proof.
  split.
  - intros H. apply nth_error_split in H as [before [after [-> Hb]]].
    exists before, after. cbn. repeat split; [exact Hb | lia].
  - intros [before [after [-> [<- _]]]]. cbn [app].
    now rewrite nth_error_app2, Nat.sub_diag by lia.
Qed.

Lemma unitAt_spans (s : str) (p : ascii -> bool) (i j : nat) :
  unitAt s p i j <-> exists c, p c = true /\ spans s i j [c].
Proof.
  unfold unitAt. split.
  - intros [c [Hc [Hp ->]]]. exists c. split; [exact Hp | now apply spans_unit].
  - intros [c [Hp H]]. exists c.
    assert (j = S i) by (destruct H as [b [a [_ [_ ->]]]]; cbn; lia). subst j.
    split; [now apply spans_unit | split; [exact Hp | reflexivity]].
Qed.

(** For a pattern without anchors, matching from [i] to [j] is the same
    as the piece from [i] to [j] being in its language. *)
Lemma matches_language (m : bool) (s : str) (r : regex) :
  anchorFree r = true ->
  forall i j, i <= length s ->
              (matches m s r i j <-> exists x, spans s i j x /\ language r x).
Proof.
  induction r as [ | c | | negated atoms | r1 IH1 r2 IH2 | r1 IH1 r2 IH2
                   | min max r1 IH1 | n r1 IH1 | | | r1 IH1 ];
    intros Hfree i j Hi; cbn [matches language anchorFree] in *; try discriminate.
  - split.
    + intros ->. exists "". split; [now apply spans_nil | reflexivity].
    + intros [x [Hx ->]]. destruct Hx as [b [a [_ [_ ->]]]]. cbn. lia.
  - rewrite unitAt_spans. split.
    + intros [c' [Hc H]]. apply Ascii.eqb_eq in Hc. subst c'. now exists [c].
    + intros [x [H ->]]. exists c. split; [apply Ascii.eqb_refl | exact H].
  - rewrite unitAt_spans. split.
    + intros [c [Hc H]]. exists [c]. split; [exact H|]. exists c.
      split; [reflexivity | now apply negb_true_iff].
    + intros [x [H [c [-> Hc]]]]. exists c. split; [now apply negb_true_iff | exact H].
  - rewrite unitAt_spans. split.
    + intros [c [Hc H]]. exists [c]. split; [exact H | now exists c].
    + intros [x [H [c [-> Hc]]]]. now exists c.
  - apply andb_true_iff in Hfree as [F1 F2]. split.
    + intros [l [H1 H2]]. apply (IH1 F1 i l Hi) in H1 as [a [Sa La]].
      apply (IH2 F2 l j (proj2 (spans_bounds _ _ _ _ Sa))) in H2 as [b [Sb Lb]].
      exists (a ++ b). split; [exact (spans_seq _ _ _ _ _ _ Sa Sb) | now exists a, b].
    + intros [x [Sx [a [b [-> [La Lb]]]]]]. apply spans_split in Sx as [Sa Sb].
      exists (i + length a). split.
      * apply (IH1 F1 i _ Hi). now exists a.
      * apply (IH2 F2 _ j (proj2 (spans_bounds _ _ _ _ Sa))). now exists b.
  - apply andb_true_iff in Hfree as [F1 F2].
    rewrite (IH1 F1 i j Hi), (IH2 F2 i j Hi). split.
    + intros [[x [Sx Lx]] | [x [Sx Lx]]]; exists x; tauto.
    + intros [x [Sx [Lx|Lx]]]; [left | right]; now exists x.
  - assert (Hit : forall k i j, i <= length s ->
                    (iterate (matches m s r1) k i j
                     <-> exists pieces, length pieces = k /\ Forall (language r1) pieces
                                        /\ spans s i j (concat pieces))).
    { induction k as [|k IHk]; intros i' j' Hi'; cbn [iterate].
      - split.
        + intros ->. exists []. repeat split; [constructor | now apply spans_nil].
        + intros [[|p ps] [Hl [_ H]]]; [|discriminate].
          destruct H as [b [a [_ [_ ->]]]]. cbn. lia.
      - split.
        + intros [l [H1 H2]]. apply (IH1 Hfree i' l Hi') in H1 as [a [Sa La]].
          apply (IHk l j' (proj2 (spans_bounds _ _ _ _ Sa))) in H2
            as [ps [Hl [Hps Sps]]].
          exists (a :: ps). cbn [length concat]. split; [now rewrite Hl|].
          split; [now constructor | exact (spans_seq _ _ _ _ _ _ Sa Sps)].
        + intros [[|a ps] [Hl [Hps H]]]; [discriminate|].
          cbn [concat] in H. apply spans_split in H as [Sa Sps].
          inversion Hps as [|? ? La Hps']; subst. injection Hl as Hl.
          exists (i' + length a). split.
          * apply (IH1 Hfree i' _ Hi'). now exists a.
          * apply (IHk _ j' (proj2 (spans_bounds _ _ _ _ Sa))). now exists ps. }
    split.
    + intros [k [Hc H]]. apply (Hit k i j Hi) in H as [ps [Hl [Hps Sps]]].
      exists (concat ps). split; [exact Sps|]. exists ps. rewrite Hl. now repeat split.
    + intros [x [Sx [ps [Hc [Hps ->]]]]]. exists (length ps). split; [exact Hc|].
      apply (Hit _ i j Hi). now exists ps.
  - now apply IH1.
Qed.

Lemma language_lit (w x : str) : language (lit w) x <-> x = w.
Proof.
  revert x. induction w as [|c w IH]; intros x; [reflexivity|].
  destruct w as [|c' w]; [reflexivity|].
  change (lit (c :: c' :: w)) with (Seq (Chr c) (lit (c' :: w))).
  cbn [language]. split.
  - intros [a [b [-> [-> Hb]]]]. apply IH in Hb. now subst.
  - intros ->. exists [c], (c' :: w). split; [reflexivity | split; [reflexivity|]].
    now apply IH.
Qed.

Lemma language_plus_dot (x : str) : language (plus Dot) x <-> dotPlus x.
Proof.
  unfold plus, dotPlus. cbn [language countAllowed]. split.
  - intros [pieces [Hn [Hps ->]]]. split.
    + destruct pieces as [|p ps]; [cbn in Hn; lia|].
      inversion Hps as [|? ? [c [-> _]] _]; subst. discriminate.
    + clear Hn. induction Hps as [|p ps [c [-> Hc]] _ IH]; [reflexivity|].
      cbn [concat app forallb]. now rewrite Hc, IH.
  - intros [Hne Hall]. exists (map (fun c => [c]) x). split; [|split].
    + rewrite length_map. destruct x; [contradiction | cbn; lia].
    + clear Hne. induction x as [|c x IH]; [constructor|].
      cbn [forallb] in Hall. apply andb_true_iff in Hall as [Hc Hall].
      constructor; [|now apply IH].
      exists c. split; [reflexivity | now apply negb_true_iff].
    + clear. induction x as [|c x IH]; [reflexivity|]. cbn. now rewrite <- IH.
Qed.

(** * The test-filename patterns *)

Lemma matches_seq_snoc (m : bool) (s : str) (rs : list regex) (r : regex) :
  rs <> [] ->
  forall i j,
    matches m s (seq (rs ++ [r])) i j
    <-> exists l, matches m s (seq rs) i l /\ matches m s r l j.
Proof.
  induction rs as [|r1 rs IH]; [contradiction|]. intros _ i j.
  destruct rs as [|r2 rs]; [reflexivity|].
  change (seq ((r1 :: r2 :: rs) ++ [r])) with (Seq r1 (seq ((r2 :: rs) ++ [r]))).
  change (seq (r1 :: r2 :: rs)) with (Seq r1 (seq (r2 :: rs))).
  cbn [matches]. split.
  - intros [l [H1 H]]. apply IH in H as [l' [H2 H3]]; [|discriminate].
    exists l'. split; [now exists l | exact H3].
  - intros [l' [[l [H1 H2]] H3]]. exists l. split; [exact H1|].
    apply IH; [discriminate | now exists l'].
Qed.

Lemma anchorFree_seq (rs : list regex) :
  forallb anchorFree rs = true -> anchorFree (seq rs) = true.
Proof.
  induction rs as [|r rs IH]; [reflexivity|]. cbn [forallb].
  intros H. apply andb_true_iff in H as [Hr Hrs].
  destruct rs as [|r' rs]; [exact Hr|].
  change (seq (r :: r' :: rs)) with (Seq r (seq (r' :: rs))).
  cbn [anchorFree]. now rewrite Hr, IH.
Qed.

Lemma atEol_end (s : str) (i : nat) : atEol false s i = true <-> length s <= i.
Proof.
  unfold atEol. destruct (nth_error s i) eqn:E.
  - split; [discriminate|]. intros H. apply nth_error_None in H. congruence.
  - split; [intros _; now apply nth_error_None | reflexivity].
Qed.

Lemma atBol_start (s : str) (i : nat) : atBol false s i = true <-> i = 0.
Proof. destruct i; cbn; split; congruence. Qed.

Lemma spans_to_end (s : str) (i : nat) (x : str) :
  spans s i (length s) x <-> exists before, s = before ++ x /\ length before = i.
Proof.
  split.
  - intros [before [after [E [Hb Hl]]]]. exists before. split; [|exact Hb].
    assert (after = "").
    { apply (f_equal (@length ascii)) in E. rewrite !length_app in E.
      destruct after; [reflexivity | cbn in E; lia]. }
    subst after. now rewrite app_nil_r in E.
  - intros [before [-> <-]]. exists before, "". rewrite app_nil_r, length_app.
    now repeat split.
Qed.

(** A pattern [body$] without flags tests true on the strings that end
    with a string of the language of [body]. *)
Lemma test_end_anchored (body : list regex) (s : str) :
  body <> [] -> forallb anchorFree body = true ->
  (fst (test (literal (seq (body ++ [Eol])) false false) s) = true
   <-> exists before x, s = before ++ x /\ language (seq body) x).
Proof.
  intros Hne Hfree. rewrite test_success by reflexivity.
  cbn [literal multiline pattern]. split.
  - intros [i [j [Hi H]]]. apply (matches_seq_snoc false s body Eol Hne) in H.
    destruct H as [l [Hbody [Heol ->]]]. apply atEol_end in Heol.
    apply (matches_language false s _ (anchorFree_seq body Hfree) i l Hi) in Hbody.
    destruct Hbody as [x [Sx Lx]].
    assert (l = length s) by (apply spans_bounds in Sx; lia). subst l.
    apply spans_to_end in Sx as [before [E _]]. now exists before, x.
  - intros [before [x [-> Lx]]]. exists (length before), (length (before ++ x)).
    split; [rewrite length_app; lia|].
    apply (matches_seq_snoc false (before ++ x) body Eol Hne).
    exists (length (before ++ x)). split.
    + apply (matches_language false _ _ (anchorFree_seq body Hfree));
        [rewrite length_app; lia|].
      exists x. split; [|exact Lx]. apply spans_to_end. now exists before.
    + cbn [matches]. split; [now apply atEol_end | reflexivity].
Qed.

(** A pattern [^body$] without flags tests true on the strings of the
    language of [body]. *)
Lemma test_anchored (body : list regex) (s : str) :
  body <> [] -> forallb anchorFree body = true ->
  (fst (test (literal (seq (Bol :: body ++ [Eol])) false false) s) = true
   <-> language (seq body) s).
Proof.
  intros Hne Hfree. rewrite test_success by reflexivity.
  cbn [literal multiline pattern].
  assert (Hseq : seq (Bol :: body ++ [Eol]) = Seq Bol (seq (body ++ [Eol]))).
  { destruct body as [|r rs]; [contradiction | reflexivity]. }
  rewrite Hseq. cbn [matches]. split.
  - intros [i [j [Hi [l [[Hbol ->] H]]]]]. apply atBol_start in Hbol. subst i.
    apply (matches_seq_snoc false s body Eol Hne) in H.
    destruct H as [l [Hbody [Heol ->]]]. apply atEol_end in Heol.
    apply (matches_language false s _ (anchorFree_seq body Hfree) 0 l Hi) in Hbody.
    destruct Hbody as [x [Sx Lx]].
    assert (l = length s) by (apply spans_bounds in Sx; lia). subst l.
    apply spans_to_end in Sx as [before [E Hb]].
    destruct before; [|discriminate]. now subst.
  - intros Ls. exists 0, (length s). split; [lia|].
    exists 0. split; [split; [reflexivity | reflexivity]|].
    apply (matches_seq_snoc false s body Eol Hne).
    exists (length s). split.
    + apply (matches_language false _ _ (anchorFree_seq body Hfree)); [lia|].
      exists s. split; [|exact Ls]. apply spans_to_end. now exists "".
    + cbn [matches]. split; [now apply atEol_end | reflexivity].
Qed.

Lemma language_seq3 (a b c : regex) (x : str) :
  language (seq [a; b; c]) x
  <-> exists xa xb xc, x = xa ++ xb ++ xc
                       /\ language a xa /\ language b xb /\ language c xc.
Proof.
  cbn [seq language]. split.
  - intros [xa [y [-> [La [xb [xc [-> [Lb Lc]]]]]]]]. now exists xa, xb, xc.
  - intros [xa [xb [xc [-> [La [Lb Lc]]]]]]. exists xa, (xb ++ xc).
    split; [reflexivity | split; [exact La|]]. now exists xb, xc.
Qed.

(** [(.+)w(e)] and [w(.+)(e)], with [w] and [e] literal. *)
Lemma language_dots_word_ext (n1 n2 : nat) (w e x : str) :
  language (seq [Group n1 (plus Dot); lit w; Group n2 (lit e)]) x
  <-> exists d, dotPlus d /\ x = d ++ w ++ e.
Proof.
  rewrite language_seq3. cbn [language]. split.
  - intros [xa [xb [xc [-> [La [Lb Lc]]]]]].
    apply language_plus_dot in La. apply language_lit in Lb, Lc. subst. now exists xa.
  - intros [d [Hd ->]]. exists d, w, e. split; [reflexivity|].
    split; [now apply language_plus_dot | split; now apply language_lit].
Qed.

Lemma language_word_dots_ext (n1 n2 : nat) (w e x : str) :
  language (seq [lit w; Group n1 (plus Dot); Group n2 (lit e)]) x
  <-> exists d, dotPlus d /\ x = w ++ d ++ e.
Proof.
  rewrite language_seq3. cbn [language]. split.
  - intros [xa [xb [xc [-> [La [Lb Lc]]]]]].
    apply language_plus_dot in Lb. apply language_lit in La, Lc. subst. now exists xb.
  - intros [d [Hd ->]]. exists w, d, e. split; [reflexivity|].
    split; [now apply language_lit | split; [now apply language_plus_dot|]].
    now apply language_lit.
Qed.

(** [(.+)w(e1|e2)], with [w], [e1] and [e2] literal. *)
Lemma language_dots_word_exts (n1 n2 : nat) (w e1 e2 x : str) :
  language (seq [Group n1 (plus Dot); lit w; Group n2 (Alt (lit e1) (lit e2))]) x
  <-> exists d, dotPlus d /\ (x = d ++ w ++ e1 \/ x = d ++ w ++ e2).
Proof.
  rewrite language_seq3. cbn [language]. split.
  - intros [xa [xb [xc [-> [La [Lb Lc]]]]]].
    apply language_plus_dot in La. apply language_lit in Lb. subst xb.
    exists xa. split; [exact La|].
    destruct Lc as [Lc|Lc]; apply language_lit in Lc; subst; tauto.
  - intros [d [Hd [-> | ->]]].
    + exists d, w, e1. split; [reflexivity|].
      split; [now apply language_plus_dot | split; [now apply language_lit|]].
      left. now apply language_lit.
    + exists d, w, e2. split; [reflexivity|].
      split; [now apply language_plus_dot | split; [now apply language_lit|]].
      right. now apply language_lit.
Qed.

(** X13: The java base names the name heuristic takes for tests:
    [...Test.java] with something before [Test], [...Tests.java] with
    something before [Tests], and [...Test....java] with something between
    [Test] and [.java]; "something" is one or more code units, none a line
    terminator. *)
Theorem isTestFileByName_java (filePath : str) :
  isTestFileByName filePath "java" = Returned true
  <-> exists d,
        dotPlus d
        /\ (Path.basename filePath = d ++ "Test.java"
            \/ (exists before, Path.basename filePath = before ++ d ++ "Tests.java")
            \/ (exists before, Path.basename filePath = before ++ "Test" ++ d ++ ".java")).
Proof.
  set (filename := Path.basename filePath).
  assert (H1 : fst (test (literal (seq [Bol; Group 1 (plus Dot); lit "Test";
                                       Group 2 (lit ".java"); Eol]) false false) filename)
               = true
               <-> exists d, dotPlus d /\ filename = d ++ "Test" ++ ".java").
  { rewrite <- language_dots_word_ext.
    apply (test_anchored [Group 1 (plus Dot); lit "Test"; Group 2 (lit ".java")]);
      [discriminate | reflexivity]. }
  assert (H2 : fst (test (literal (seq [Group 1 (plus Dot); lit "Tests";
                                       Group 2 (lit ".java"); Eol]) false false) filename)
               = true
               <-> exists before x, filename = before ++ x
                                    /\ exists d, dotPlus d /\ x = d ++ "Tests" ++ ".java").
  { rewrite (test_end_anchored [Group 1 (plus Dot); lit "Tests"; Group 2 (lit ".java")]);
      [|discriminate|reflexivity].
    split; intros [before [x [E L]]]; exists before, x; (split; [exact E|]);
      now apply (language_dots_word_ext 1 2 "Tests" ".java" x). }
  assert (H3 : fst (test (literal (seq [lit "Test"; Group 1 (plus Dot);
                                       Group 2 (lit ".java"); Eol]) false false) filename)
               = true
               <-> exists before x, filename = before ++ x
                                    /\ exists d, dotPlus d /\ x = "Test" ++ d ++ ".java").
  { rewrite (test_end_anchored [lit "Test"; Group 1 (plus Dot); Group 2 (lit ".java")]);
      [|discriminate|reflexivity].
    split; intros [before [x [E L]]]; exists before, x; (split; [exact E|]);
      now apply (language_word_dots_ext 1 2 "Test" ".java" x). }
  change (isTestFileByName filePath "java")
    with (Returned (anyPatternMatches javaTestPatterns filename)).
  unfold javaTestPatterns. cbn [anyPatternMatches].
  split.
  - intros H. injection H as H.
    destruct (fst (test _ filename)) eqn:T1 in H.
    { apply H1 in T1 as [d [Hd E]]. exists d. split; [exact Hd | now left]. }
    destruct (fst (test _ filename)) eqn:T2 in H.
    { apply H2 in T2 as [before [x [E [d [Hd ->]]]]]. exists d.
      split; [exact Hd | right; left; now exists before]. }
    destruct (fst (test _ filename)) eqn:T3 in H; [|discriminate].
    apply H3 in T3 as [before [x [E [d [Hd ->]]]]]. exists d.
    split; [exact Hd | right; right; now exists before].
  - intros [d [Hd [E | [[before E] | [before E]]]]]; f_equal.
    + rewrite (proj2 H1); [reflexivity | now exists d].
    + destruct (fst (test _ filename)); [reflexivity|].
      rewrite (proj2 H2); [reflexivity|]. exists before, (d ++ "Tests.java").
      split; [exact E | now exists d].
    + destruct (fst (test _ filename)); [reflexivity|].
      destruct (fst (test _ filename)); [reflexivity|].
      rewrite (proj2 H3); [reflexivity|]. exists before, ("Test" ++ d ++ ".java").
      split; [exact E | now exists d].
Qed.

Lemma anyPatternMatches_two (p1 p2 : RegExp.t) (filename : str) :
  anyPatternMatches [p1; p2] filename = true
  <-> fst (test p1 filename) = true \/ fst (test p2 filename) = true.
Proof.
  cbn [anyPatternMatches].
  destruct (fst (test p1 filename)); [tauto|].
  destruct (fst (test p2 filename)); [tauto|].
  split; [discriminate | intros [H|H]; discriminate].
Qed.

(** X14: The python base names the name heuristic takes for tests:
    [test_....py] and [..._test.py], the dots standing for one or more code
    units, none a line terminator. *)
Theorem isTestFileByName_python (filePath : str) :
  isTestFileByName filePath "python" = Returned true
  <-> exists d,
        dotPlus d
        /\ (Path.basename filePath = "test_" ++ d ++ ".py"
            \/ Path.basename filePath = d ++ "_test.py").
Proof.
  set (filename := Path.basename filePath).
  change (isTestFileByName filePath "python")
    with (Returned (anyPatternMatches pythonTestPatterns filename)).
  unfold pythonTestPatterns.
  assert (Hinj : Returned (anyPatternMatches
                   [literal (seq [Bol; lit "test_"; Group 1 (plus Dot);
                                  Group 2 (lit ".py"); Eol]) false false;
                    literal (seq [Bol; Group 1 (plus Dot); lit "_test";
                                  Group 2 (lit ".py"); Eol]) false false] filename)
                 = Returned true
                 <-> anyPatternMatches
                       [literal (seq [Bol; lit "test_"; Group 1 (plus Dot);
                                      Group 2 (lit ".py"); Eol]) false false;
                        literal (seq [Bol; Group 1 (plus Dot); lit "_test";
                                      Group 2 (lit ".py"); Eol]) false false] filename
                     = true).
  { split; [intros H; now injection H | intros ->; reflexivity]. }
  rewrite Hinj, anyPatternMatches_two.
  rewrite (test_anchored [lit "test_"; Group 1 (plus Dot); Group 2 (lit ".py")])
    by (discriminate || reflexivity).
  rewrite (test_anchored [Group 1 (plus Dot); lit "_test"; Group 2 (lit ".py")])
    by (discriminate || reflexivity).
  rewrite language_word_dots_ext, language_dots_word_ext. split.
  - intros [[d [Hd E]] | [d [Hd E]]]; exists d; (split; [exact Hd|]); tauto.
  - intros [d [Hd [E|E]]]; [left | right]; now exists d.
Qed.

Lemma isTestFileByName_python_witness :
  isTestFileByName "pkg/test_widget.py" "python" = Returned true.
Proof.
  apply (isTestFileByName_python "pkg/test_widget.py").
  exists "widget". split; [split; [discriminate | reflexivity] | now left].
Defined.

Lemma isTestFileByName_java_witness :
  isTestFileByName "src/WidgetTests.java" "java" = Returned true.
Proof.
  apply (isTestFileByName_java "src/WidgetTests.java").
  exists "t". split; [split; [discriminate | reflexivity]|].
  right. left. now exists "Widge".
Defined.

Lemma anchorFree_lit (w : str) : anchorFree (lit w) = true.
Proof.
  induction w as [|c w IH]; [reflexivity|].
  destruct w as [|c' w]; [reflexivity|].
  change (lit (c :: c' :: w)) with (Seq (Chr c) (lit (c' :: w))).
  cbn [anchorFree]. exact IH.
Qed.

Lemma test_dots_word_exts (w e1 e2 filename : str) :
  fst (test (literal (seq [Bol; Group 1 (plus Dot); lit w;
                           Group 2 (Alt (lit e1) (lit e2)); Eol]) false false) filename)
  = true
  <-> exists d, dotPlus d /\ (filename = d ++ w ++ e1 \/ filename = d ++ w ++ e2).
Proof.
  rewrite (test_anchored [Group 1 (plus Dot); lit w; Group 2 (Alt (lit e1) (lit e2))]).
  - apply language_dots_word_exts.
  - discriminate.
  - cbn [forallb anchorFree plus]. now rewrite !anchorFree_lit.
Qed.

Lemma returned_true (b : bool) : Returned b = Returned true <-> b = true.
Proof. split; [intros H; now injection H | intros ->; reflexivity]. Qed.

(** X15: The typescript base names the name heuristic takes for tests, for
    [typescript] and [typescriptreact] alike: [....test.ts],
    [....test.tsx], [....spec.ts] and [....spec.tsx], with one or more
    code units before, none a line terminator. *)
Theorem isTestFileByName_typescript (filePath language : str) :
  language = "typescript" \/ language = "typescriptreact" ->
  (isTestFileByName filePath language = Returned true
   <-> exists d,
         dotPlus d
         /\ (Path.basename filePath = d ++ ".test.ts"
             \/ Path.basename filePath = d ++ ".test.tsx"
             \/ Path.basename filePath = d ++ ".spec.ts"
             \/ Path.basename filePath = d ++ ".spec.tsx")).
Proof.
  set (filename := Path.basename filePath). intros Hl.
  assert (E : isTestFileByName filePath language
              = Returned (anyPatternMatches tsTestPatterns filename))
    by (destruct Hl as [-> | ->]; reflexivity).
  rewrite E, returned_true. unfold tsTestPatterns.
  rewrite anyPatternMatches_two, !test_dots_word_exts. split.
  - intros [[d [Hd H]] | [d [Hd H]]]; exists d; (split; [exact Hd|]); tauto.
  - intros [d [Hd [H | [H | [H | H]]]]]; [left | left | right | right];
      exists d; (split; [exact Hd|]); tauto.
Qed.

Lemma isTestFileByName_typescript_witness :
  isTestFileByName "src/app/widget.spec.tsx" "typescriptreact" = Returned true.
Proof.
  apply (isTestFileByName_typescript "src/app/widget.spec.tsx" "typescriptreact");
    [now right|].
  exists "widget". split; [split; [discriminate | reflexivity]|]. tauto.
Defined.

(** X16: The javascript base names the name heuristic takes for tests, for
    [javascript] and [javascriptreact] alike: [....test.js],
    [....test.jsx], [....spec.js] and [....spec.jsx], with one or more
    code units before, none a line terminator. *)
Theorem isTestFileByName_javascript (filePath language : str) :
  language = "javascript" \/ language = "javascriptreact" ->
  (isTestFileByName filePath language = Returned true
   <-> exists d,
         dotPlus d
         /\ (Path.basename filePath = d ++ ".test.js"
             \/ Path.basename filePath = d ++ ".test.jsx"
             \/ Path.basename filePath = d ++ ".spec.js"
             \/ Path.basename filePath = d ++ ".spec.jsx")).
Proof.
  set (filename := Path.basename filePath). intros Hl.
  assert (E : isTestFileByName filePath language
              = Returned (anyPatternMatches jsTestPatterns filename))
    by (destruct Hl as [-> | ->]; reflexivity).
  rewrite E, returned_true. unfold jsTestPatterns.
  rewrite anyPatternMatches_two, !test_dots_word_exts. split.
  - intros [[d [Hd H]] | [d [Hd H]]]; exists d; (split; [exact Hd|]); tauto.
  - intros [d [Hd [H | [H | [H | H]]]]]; [left | left | right | right];
      exists d; (split; [exact Hd|]); tauto.
Qed.

Lemma isTestFileByName_javascript_witness :
  isTestFileByName "lib/util.test.js" "javascript" = Returned true.
Proof.
  apply (isTestFileByName_javascript "lib/util.test.js" "javascript"); [now left|].
  exists "util". split; [split; [discriminate | reflexivity]|]. tauto.
Defined.

Lemma table_patterns_return_witness :
  exists ms,
    successiveMatches pythonClassPattern "class Widget:" 0 ms
    /\ forall fuel,
         length "class Widget:" + 2 <= fuel ->
         extractFunctions fuel "class Widget:" (Some pythonClassPattern)
         = Some (map (fun m => item m 1) ms, Some pythonClassPattern).
Proof.
  apply (table_patterns_return "class Widget:" pythonClassPattern).
  right. right. right. left. reflexivity.
Defined.
